(** * jump_starter.models: structural validation of a questionnaire

    A shallow embedding of [src/jump_starter/models.py].  The module defines
    the pydantic models of a branching questionnaire and one model validator,
    [Questionnaire.validate_and_build_id_map], whose local function [walk]
    traverses the tree of questions and switches, fills the dictionary
    [id_to_node] and collects the cross references ([next_question], [goto]),
    which are then checked against the dictionary.

    The three local variables the closure [walk] mutates ([errors],
    [id_to_node], [refs]) are threaded explicitly as a [State].  The
    dictionary is a [gmap string Node]; locations are Python tuples mixing
    field names and indices.  A statement either returns a state or raises
    an exception; the state in which an exception is raised is kept, so that
    what the code has done until then can be stated.

    The three places that report a problem evaluate
    [errors.append(PydanticCustomError(...).as_error(loc=...))].
    [PydanticCustomError] has no attribute [as_error], so this expression
    raises [AttributeError] and nothing is appended: the first duplicate
    identifier stops the walk and the first unresolved reference stops the
    reference check. *)

From stdpp Require Import gmap strings list fin_maps.

Local Open Scope string_scope.
Local Open Scope nat_scope.
Local Open Scope list_scope.

(** ** Node model *)

Record Template := mkTemplate {
  replacement : string;
  code : string
}.

Module Answer.
Record t := mk {
  answer : string;
  tooltip : string;
  templates : list Template;
  goto : option string;
  commentary : string
}.
End Answer.

Module Question.
Record t := mk {
  question : string;
  id : option string;
  variable : option string;
  answers : list Answer.t;
  next_question : option string
}.
End Question.

(** [Case.questions] is a list of [Question | Switch] and [Switch.cases] a
    list of [Case]: the three types are mutually recursive through [list]. *)
Unset Elimination Schemes.
Inductive Node :=
  | NQuestion (q : Question.t)
  | NSwitch (s : Switch)
with Switch :=
  | mkSwitch (switch : string) (id : option string) (cases : list Case)
with Case :=
  | mkCase (value : option Z) (questions : list Node).
Set Elimination Schemes.

Module Switch.
Definition switch (s : Switch) : string :=
  match s with mkSwitch sw _ _ => sw end.
Definition id (s : Switch) : option string :=
  match s with mkSwitch _ i _ => i end.
Definition cases (s : Switch) : list Case :=
  match s with mkSwitch _ _ cs => cs end.
End Switch.

Module Case.
Definition value (c : Case) : option Z :=
  match c with mkCase v _ => v end.
Definition questions (c : Case) : list Node :=
  match c with mkCase _ qs => qs end.
End Case.

Module Questionnaire.
Record t := mk {
  initial_template : string;
  initial_commentary : string;
  feedback_url : option string;
  questions : list Node;
  _question_map : gmap string Node
}.
End Questionnaire.

(** ** Locations, errors and exceptions *)

(** One component of a location tuple: a field name or an index produced by
    [enumerate]. *)
Inductive Seg :=
  | SStr (s : string)
  | SInt (i : nat).

Global Instance Seg_eq_dec : EqDecision Seg.
Proof. solve_decision. Defined.

Abbreviation Loc := (list Seg).

(** [PydanticCustomError(type, message_template, context)], with the single
    context entry the validator passes. *)
Record PydanticCustomError := mkCustomError {
  error_type : string;
  message_template : string;
  context : string * string
}.

Global Instance PydanticCustomError_eq_dec : EqDecision PydanticCustomError.
Proof. solve_decision. Defined.

(** Lines 97-101 and 118-122. *)
Definition duplicate_id (ident : string) : PydanticCustomError :=
  mkCustomError "duplicate_id" "Duplicate id '{id}'" ("id", ident).

(** Lines 142-146. *)
Definition invalid_reference (ref : string) : PydanticCustomError :=
  mkCustomError "invalid_reference" "Unknown reference '{ref}'" ("ref", ref).

(** An element of the list [errors]: an error and the location it is
    attached to. *)
Record ErrorDetails := mkError {
  err_error : PydanticCustomError;
  err_loc : Loc
}.

Global Instance ErrorDetails_eq_dec : EqDecision ErrorDetails.
Proof. solve_decision. Defined.

(** [ValidationError.from_exception_data(title, errors)]. *)
Record ValidationError := mkValidationError {
  title : string;
  line_errors : list ErrorDetails
}.

(** The exceptions the validator can raise: [AttributeError] for a missing
    attribute of an object of the named type, and the [ValidationError] of
    line 151. *)
Inductive Exception :=
  | AttributeError (type_name attribute : string)
  | RaisedValidationError (e : ValidationError).

(** The exception of a [PydanticCustomError] asked for [as_error]. *)
Definition missing_as_error : Exception :=
  AttributeError "PydanticCustomError" "as_error".

(** [PydanticCustomError(...).as_error(loc=...)].  The class defines [type],
    [message_template], [context] and [message()] and nothing called
    [as_error]: looking the attribute up raises [AttributeError], whatever
    the error and the location. *)
Definition as_error (e : PydanticCustomError) (loc : Loc)
    : Exception + ErrorDetails :=
  inl missing_as_error.

(** ** Python truthiness of [str | None] *)

(** [if x:] for [x : str | None]: false on [None] and on the empty string. *)
Definition truthy (x : option string) : bool :=
  match x with
  | None => false
  | Some s => negb (String.eqb s "")
  end.

(** The value of [x] in a branch guarded by [if x:]. *)
Definition str_of (x : option string) : string := default "" x.

(** ** The validator *)

(** The local variables of [validate_and_build_id_map] that [walk] closes
    over and mutates. *)
Record State := mkState {
  errors : list ErrorDetails;
  id_to_node : gmap string Node;
  refs : list (Loc * string)
}.

(** A statement returns a state or raises an exception in a state. *)
Inductive Outcome :=
  | Returned (st : State)
  | Raised (e : Exception) (st : State).

(** Sequencing: what follows a statement runs only if it returned. *)
Definition and_then (o : Outcome) (k : State → Outcome) : Outcome :=
  match o with
  | Returned st => k st
  | Raised e st => Raised e st
  end.

(** The values of the local variables when a statement has returned or
    raised. *)
Definition outcome_state (o : Outcome) : State :=
  match o with
  | Returned st => st
  | Raised _ st => st
  end.

(** [errors.append(e.as_error(loc=loc))]: the argument is evaluated first. *)
Definition append_error (e : PydanticCustomError) (loc : Loc) (st : State)
    : Outcome :=
  match as_error e loc with
  | inl exc => Raised exc st
  | inr details =>
      Returned (mkState (errors st ++ [details]) (id_to_node st) (refs st))
  end.

(** Lines 95-104 and 116-125: [if id in id_to_node: errors.append(...) else:
    id_to_node[id] = node]. *)
Definition declare (ident : string) (node : Node) (node_loc : Loc)
    (st : State) : Outcome :=
  match id_to_node st !! ident with
  | Some _ => append_error (duplicate_id ident) (node_loc ++ [SStr "id"]) st
  | None =>
      Returned
        (mkState (errors st) (<[ident := node]> (id_to_node st)) (refs st))
  end.

Definition append_ref (r : Loc * string) (st : State) : State :=
  mkState (errors st) (id_to_node st) (refs st ++ [r]).

(** Lines 109-111: [for j, ans in enumerate(node.answers)], entered at index
    [j]. *)
Fixpoint walk_answers (j : nat) (anss : list Answer.t) (node_loc : Loc)
    (st : State) : State :=
  match anss with
  | [] => st
  | ans :: anss' =>
      let st1 :=
        if truthy (Answer.goto ans)
        then append_ref (node_loc ++ [SStr "answers"; SInt j; SStr "goto"],
                         str_of (Answer.goto ans)) st
        else st in
      walk_answers (S j) anss' node_loc st1
  end.

(** Lines 106-111: the references of a [Question]. *)
Definition question_refs (q : Question.t) (node_loc : Loc) (st : State)
    : State :=
  let st1 :=
    if truthy (Question.next_question q)
    then append_ref (node_loc ++ [SStr "next_question"],
                     str_of (Question.next_question q)) st
    else st in
  walk_answers 0 (Question.answers q) node_loc st1.

(** Lines 93-111: the body of the loop for a [Question]. *)
Definition walk_question (q : Question.t) (node_loc : Loc) (st : State)
    : Outcome :=
  let ident :=
    if truthy (Question.id q) then str_of (Question.id q)
    else Question.question q in
  and_then (declare ident (NQuestion q) node_loc st)
           (λ st1, Returned (question_refs q node_loc st1)).

(** Lines 115-125: the identifier part of the loop body for a [Switch]. *)
Definition walk_switch_id (s : Switch) (node_loc : Loc) (st : State)
    : Outcome :=
  if truthy (Switch.id s)
  then declare (str_of (Switch.id s)) (NSwitch s) node_loc st
  else Returned st.

(** Lines 90-133: the loop body for one [node] at location [node_loc].  The
    two inner fixpoints are the loops over [enumerate(node.cases)] and, for
    the recursive call [walk(case.questions, node_loc + ("cases", k))], over
    [enumerate(nodes)]. *)
Fixpoint walk_node (node : Node) (node_loc : Loc) (st : State) {struct node}
    : Outcome :=
  match node with
  | NQuestion q => walk_question q node_loc st
  | NSwitch (mkSwitch sw i cs as s) =>
      and_then (walk_switch_id s node_loc st)
        ((fix walk_cases (k : nat) (cs : list Case) (st : State) {struct cs}
              : Outcome :=
            match cs with
            | [] => Returned st
            | mkCase _ qs :: cs' =>
                and_then
                  ((fix walk_from (i : nat) (nodes : list Node) (loc : Loc)
                        (st : State) {struct nodes} : Outcome :=
                      match nodes with
                      | [] => Returned st
                      | n :: nodes' =>
                          and_then
                            (walk_node n
                               (loc ++ [SStr "questions"; SInt i]) st)
                            (walk_from (S i) nodes' loc)
                      end)
                     0 qs (node_loc ++ [SStr "cases"; SInt k]) st)
                  (walk_cases (S k) cs')
            end)
           0 cs)
  end.

(** [for i, node in enumerate(nodes)], entered at index [i]. *)
Fixpoint walk_from (i : nat) (nodes : list Node) (loc : Loc) (st : State)
    : Outcome :=
  match nodes with
  | [] => Returned st
  | n :: nodes' =>
      and_then (walk_node n (loc ++ [SStr "questions"; SInt i]) st)
               (walk_from (S i) nodes' loc)
  end.

(** [def walk(nodes, loc=())]. *)
Definition walk (nodes : list Node) (loc : Loc) (st : State) : Outcome :=
  walk_from 0 nodes loc st.

(** [for k, case in enumerate(node.cases): walk(case.questions, node_loc +
    ("cases", k))], entered at index [k]. *)
Fixpoint walk_cases (k : nat) (cs : list Case) (node_loc : Loc) (st : State)
    : Outcome :=
  match cs with
  | [] => Returned st
  | c :: cs' =>
      and_then
        (walk (Case.questions c) (node_loc ++ [SStr "cases"; SInt k]) st)
        (walk_cases (S k) cs' node_loc)
  end.

(** Lines 140-147: the body of the loop over the collected references. *)
Definition check_ref (r : Loc * string) (st : State) : Outcome :=
  match id_to_node st !! r.2 with
  | Some _ => Returned st
  | None => append_error (invalid_reference r.2) r.1 st
  end.

(** Lines 139-147: [for ref_loc, ref_id in refs]. *)
Fixpoint check_refs (rs : list (Loc * string)) (st : State) : Outcome :=
  match rs with
  | [] => Returned st
  | r :: rs' => and_then (check_ref r st) (check_refs rs')
  end.

Definition init_state : State := mkState [] ∅ [].

(** Lines 84-147: the walk of the questions followed by the check of the
    references it collected. *)
Definition run (self : Questionnaire.t) : Outcome :=
  and_then (walk (Questionnaire.questions self) [] init_state)
           (λ st, check_refs (refs st) st).

(** [validate_and_build_id_map]: either the exception raised or the returned
    [self], whose [_question_map] has been assigned. *)
Definition validate_and_build_id_map (self : Questionnaire.t)
    : Exception + Questionnaire.t :=
  match run self with
  | Raised e _ => inl e
  | Returned st =>
      match errors st with
      | _ :: _ =>
          inl (RaisedValidationError
                 (mkValidationError "Questionnaire" (errors st)))
      | [] =>
          inr (Questionnaire.mk
                 (Questionnaire.initial_template self)
                 (Questionnaire.initial_commentary self)
                 (Questionnaire.feedback_url self)
                 (Questionnaire.questions self)
                 (id_to_node st))
      end
  end.

(** Modelled from the spec: the lookup operation [get_node(identifier)] of the
    output boundary, which is not part of [models.py]; it reads the published
    identifier map and answers not-found ([None]) for an unknown key. *)
Definition get_node (self : Questionnaire.t) (identifier : string)
    : option Node :=
  Questionnaire._question_map self !! identifier.

(** ** Induction over the tree *)

Section Node_induction.
Variable P : Node → Prop.
Hypothesis P_question : ∀ q, P (NQuestion q).
Hypothesis P_switch : ∀ s,
  Forall (λ c, Forall P (Case.questions c)) (Switch.cases s) →
  P (NSwitch s).

Fixpoint Node_ind (node : Node) : P node :=
  match node with
  | NQuestion q => P_question q
  | NSwitch (mkSwitch sw i cs) =>
      P_switch (mkSwitch sw i cs)
        ((fix on_cases (cs : list Case)
              : Forall (λ c, Forall P (Case.questions c)) cs :=
            match cs with
            | [] => List.Forall_nil _
            | mkCase v qs :: cs' =>
                List.Forall_cons _ (mkCase v qs) cs'
                  ((fix on_nodes (ns : list Node) : Forall P ns :=
                      match ns with
                      | [] => List.Forall_nil _
                      | n :: ns' =>
                          List.Forall_cons _ n ns' (Node_ind n) (on_nodes ns')
                      end) qs)
                  (on_cases cs')
            end) cs)
  end.
End Node_induction.

(** ** The traversal as a list of visits *)

(** The nodes the walk reaches, in the order it reaches them, each with the
    value [node_loc] has when the loop body runs on it. *)
Fixpoint visits_node (node : Node) (node_loc : Loc) {struct node}
    : list (Loc * Node) :=
  (node_loc, node) ::
  match node with
  | NQuestion _ => []
  | NSwitch (mkSwitch _ _ cs) =>
      (fix visits_cases (k : nat) (cs : list Case) {struct cs}
           : list (Loc * Node) :=
         match cs with
         | [] => []
         | mkCase _ qs :: cs' =>
             (fix visits_from (i : nat) (nodes : list Node) (loc : Loc)
                  {struct nodes} : list (Loc * Node) :=
                match nodes with
                | [] => []
                | n :: nodes' =>
                    visits_node n (loc ++ [SStr "questions"; SInt i]) ++
                    visits_from (S i) nodes' loc
                end)
               0 qs (node_loc ++ [SStr "cases"; SInt k]) ++
             visits_cases (S k) cs'
         end)
        0 cs
  end.

Fixpoint visits_from (i : nat) (nodes : list Node) (loc : Loc)
    : list (Loc * Node) :=
  match nodes with
  | [] => []
  | n :: nodes' =>
      visits_node n (loc ++ [SStr "questions"; SInt i]) ++
      visits_from (S i) nodes' loc
  end.

Definition visits (nodes : list Node) (loc : Loc) : list (Loc * Node) :=
  visits_from 0 nodes loc.

Fixpoint visits_cases (k : nat) (cs : list Case) (node_loc : Loc)
    : list (Loc * Node) :=
  match cs with
  | [] => []
  | c :: cs' =>
      visits (Case.questions c) (node_loc ++ [SStr "cases"; SInt k]) ++
      visits_cases (S k) cs' node_loc
  end.

(** What the loop body does on one node apart from descending into the
    cases of a [Switch]. *)
Definition visit (st : State) (v : Loc * Node) : Outcome :=
  match v.2 with
  | NQuestion q => walk_question q v.1 st
  | NSwitch s => walk_switch_id s v.1 st
  end.

(** The loop body run on the visits [vs] in turn, until one raises. *)
Fixpoint run_visits (vs : list (Loc * Node)) (st : State) : Outcome :=
  match vs with
  | [] => Returned st
  | v :: vs' => and_then (visit st v) (run_visits vs')
  end.

(** The positions of a tree: [node_at nodes p n] when [n] sits at the
    relative path [p] below the sequence [nodes]. *)
Inductive node_at : list Node → Loc → Node → Prop :=
  | node_at_here nodes i n :
      nodes !! i = Some n →
      node_at nodes [SStr "questions"; SInt i] n
  | node_at_case nodes i s k c p n :
      nodes !! i = Some (NSwitch s) →
      Switch.cases s !! k = Some c →
      node_at (Case.questions c) p n →
      node_at nodes
        ([SStr "questions"; SInt i; SStr "cases"; SInt k] ++ p) n.

(** ** Identifier declarations and references of a tree *)

(** The identifier a node declares: for a [Question] its [id] or, failing
    that, its [question] text; for a [Switch] its [id], if it has one. *)
Definition effective_id (node : Node) : option string :=
  match node with
  | NQuestion q =>
      Some (if truthy (Question.id q) then str_of (Question.id q)
            else Question.question q)
  | NSwitch s =>
      if truthy (Switch.id s) then Some (str_of (Switch.id s)) else None
  end.

(** An id-declaration event: the location of the declaring node, the
    identifier and the node. *)
Record Decl := mkDecl {
  decl_loc : Loc;
  decl_id : string;
  decl_node : Node
}.

Definition decl_of (v : Loc * Node) : option Decl :=
  (λ ident, mkDecl v.1 ident v.2) <$> effective_id v.2.

Definition decl_events (vs : list (Loc * Node)) : list Decl :=
  omap decl_of vs.

(** The reference events of the answers of a [Question], from index [j]. *)
Fixpoint answer_refs (j : nat) (anss : list Answer.t) (node_loc : Loc)
    : list (Loc * string) :=
  match anss with
  | [] => []
  | ans :: anss' =>
      (if truthy (Answer.goto ans)
       then [(node_loc ++ [SStr "answers"; SInt j; SStr "goto"],
              str_of (Answer.goto ans))]
       else []) ++
      answer_refs (S j) anss' node_loc
  end.

(** The reference events of one node. *)
Definition node_refs (v : Loc * Node) : list (Loc * string) :=
  match v.2 with
  | NQuestion q =>
      (if truthy (Question.next_question q)
       then [(v.1 ++ [SStr "next_question"],
              str_of (Question.next_question q))]
       else []) ++
      answer_refs 0 (Question.answers q) v.1
  | NSwitch _ => []
  end.

Definition ref_events (vs : list (Loc * Node)) : list (Loc * string) :=
  vs ≫= node_refs.

(** The registry after the declarations [ds], starting from [m]: an
    identifier already bound keeps its binding. *)
Fixpoint register (ds : list Decl) (m : gmap string Node)
    : gmap string Node :=
  match ds with
  | [] => m
  | d :: ds' =>
      register ds'
        (match m !! decl_id d with
         | Some _ => m
         | None => <[decl_id d := decl_node d]> m
         end)
  end.

(** Declarations none of which meets an identifier that is already bound,
    by the registry [m] or by an earlier one of them. *)
Definition fresh (ds : list Decl) (m : gmap string Node) : Prop :=
  NoDup (decl_id <$> ds) ∧ ∀ d, d ∈ ds → m !! decl_id d = None.

(** The state once the loop body has run on all the visits [vs], started in
    [st]: the errors are those of [st]. *)
Definition state_after (vs : list (Loc * Node)) (st : State) : State :=
  mkState (errors st)
          (register (decl_events vs) (id_to_node st))
          (refs st ++ ref_events vs).

(** The number of errors attached to the location [loc]. *)
Definition errors_at (loc : Loc) (errs : list ErrorDetails) : nat :=
  length (filter (λ e, err_loc e = loc) errs).

(** ** One validation run *)

(** The dictionary [id_to_node] and the list [refs] when the walk of line 136
    stops, by returning or by raising. *)
Definition registry (self : Questionnaire.t) : gmap string Node :=
  id_to_node
    (outcome_state (walk (Questionnaire.questions self) [] init_state)).

Definition references (self : Questionnaire.t) : list (Loc * string) :=
  refs (outcome_state (walk (Questionnaire.questions self) [] init_state)).

(** The list [errors] when the validator stops, by reaching line 149 or by
    raising before. *)
Definition violations (self : Questionnaire.t) : list ErrorDetails :=
  errors (outcome_state (run self)).

(** The id-declaration events of the tree, in traversal order. *)
Definition declarations (self : Questionnaire.t) : list Decl :=
  decl_events (visits (Questionnaire.questions self) []).

(** ** Rewriting the optional fields of a tree *)

(** [map_nodes fq fi] applies [fq] to every [Question] and [fi] to the [id]
    of every [Switch] of a tree. *)
Fixpoint map_nodes (fq : Question.t → Question.t)
    (fi : option string → option string) (node : Node) : Node :=
  match node with
  | NQuestion q => NQuestion (fq q)
  | NSwitch (mkSwitch sw i cs) =>
      NSwitch
        (mkSwitch sw (fi i)
           ((λ c, match c with
                  | mkCase v qs => mkCase v (map_nodes fq fi <$> qs)
                  end) <$> cs))
  end.

Definition map_case (fq : Question.t → Question.t)
    (fi : option string → option string) (c : Case) : Case :=
  mkCase (Case.value c) (map_nodes fq fi <$> Case.questions c).

Definition map_questionnaire (fq : Question.t → Question.t)
    (fi : option string → option string) (self : Questionnaire.t)
    : Questionnaire.t :=
  Questionnaire.mk
    (Questionnaire.initial_template self)
    (Questionnaire.initial_commentary self)
    (Questionnaire.feedback_url self)
    (map_nodes fq fi <$> Questionnaire.questions self)
    (Questionnaire._question_map self).

(** An optional string with the empty string replaced by [None]. *)
Definition blank_to_none (x : option string) : option string :=
  if truthy x then x else None.

Definition blank_answer (a : Answer.t) : Answer.t :=
  Answer.mk (Answer.answer a) (Answer.tooltip a) (Answer.templates a)
            (blank_to_none (Answer.goto a)) (Answer.commentary a).

Definition blank_question (q : Question.t) : Question.t :=
  Question.mk (Question.question q) (blank_to_none (Question.id q))
              (Question.variable q) (blank_answer <$> Question.answers q)
              (blank_to_none (Question.next_question q)).

(** The same rewriting on a state: the nodes the registry holds are
    rewritten. *)
Definition map_state (fq : Question.t → Question.t)
    (fi : option string → option string) (st : State) : State :=
  mkState (errors st) (map_nodes fq fi <$> id_to_node st) (refs st).

Definition map_outcome (fq : Question.t → Question.t)
    (fi : option string → option string) (o : Outcome) : Outcome :=
  match o with
  | Returned st => Returned (map_state fq fi st)
  | Raised e st => Raised e (map_state fq fi st)
  end.

(** ** Sample questionnaires *)

Definition ask (text : string) (ident next : option string)
    (anss : list Answer.t) : Node :=
  NQuestion (Question.mk text ident None anss next).

Definition reply (label : string) (target : option string) : Answer.t :=
  Answer.mk label "" [] target "".

Definition sample (nodes : list Node) : Questionnaire.t :=
  Questionnaire.mk "template" "" None nodes ∅.

(** Two questions without [id]; the first points at the text of the
    second. *)
Definition sample_forward : Questionnaire.t :=
  sample [ask "first?" None (Some "second?") [reply "yes" None];
          ask "second?" None None [reply "ok" None]].

(** Three questions declaring ["q1"]. *)
Definition sample_duplicate : Questionnaire.t :=
  sample [ask "a?" (Some "q1") None [];
          ask "b?" (Some "q1") None [];
          NSwitch (mkSwitch "v" None
            [mkCase (Some 1%Z) [ask "c?" (Some "q1") None []]])].

(** A duplicate of ["q1"] followed by a question that holds a reference. *)
Definition sample_duplicate_then_reference : Questionnaire.t :=
  sample [ask "a?" (Some "q1") None [];
          ask "b?" (Some "q1") None [];
          ask "c?" None (Some "q1") [reply "x" (Some "nowhere")]].

(** Two questions without [id] and with the same text. *)
Definition sample_same_text : Questionnaire.t :=
  sample [ask "again?" None None []; ask "again?" None None []].

(** An answer pointing at an identifier nobody declares, next to a
    reference that resolves. *)
Definition sample_missing : Questionnaire.t :=
  sample [ask "a?" None (Some "gone") [reply "x" (Some "a?");
                                        reply "y" (Some "missing")]].

(** A switch with two cases; a [goto] in the first case points at the
    switch, a [next_question] in the first case at a question of the second
    case. *)
Definition sample_switch : Questionnaire.t :=
  sample [NSwitch (mkSwitch "v" (Some "s1")
            [mkCase (Some 0%Z)
               [ask "left?" None (Some "right?") [reply "up" (Some "s1")]];
             mkCase (Some 1%Z) [ask "right?" None None []]])].

(** Empty strings in every optional field. *)
Definition sample_blank : Questionnaire.t :=
  sample [ask "a?" (Some "") (Some "") [reply "x" (Some "")];
          NSwitch (mkSwitch "v" (Some "") [mkCase None []]);
          NSwitch (mkSwitch "w" (Some "") [])].

(** ** Moving a run below a location *)

(** An error record with its location moved below [loc]. *)
Definition relocate (loc : Loc) (e : ErrorDetails) : ErrorDetails :=
  mkError (err_error e) (loc ++ err_loc e).

(** A reference event with its location moved below [loc]. *)
Definition relocate_ref (loc : Loc) (r : Loc * string) : Loc * string :=
  (loc ++ r.1, r.2).

Definition relocate_state (loc : Loc) (st : State) : State :=
  mkState (relocate loc <$> errors st) (id_to_node st)
          (relocate_ref loc <$> refs st).

Definition relocate_outcome (loc : Loc) (o : Outcome) : Outcome :=
  match o with
  | Returned st => Returned (relocate_state loc st)
  | Raised e st => Raised e (relocate_state loc st)
  end.

(** The identifiers declared, and the reference targets held, by a node and
    the nodes below it, in traversal order. *)
Definition node_ids (n : Node) : list string :=
  decl_id <$> decl_events (visits_node n []).

Definition node_targets (n : Node) : list string :=
  (ref_events (visits_node n [])).*2.


(** Unfolding equations of the loop body. *)
Lemma walk_node_question q node_loc st :
  walk_node (NQuestion q) node_loc st = walk_question q node_loc st.
Proof. reflexivity. Qed.

Lemma walk_node_switch s node_loc st :
  walk_node (NSwitch s) node_loc st =
  and_then (walk_switch_id s node_loc st)
           (walk_cases 0 (Switch.cases s) node_loc).
Proof.
  destruct s as [sw i cs].
  change (walk_node (NSwitch (mkSwitch sw i cs)) node_loc st) with
    (and_then (walk_switch_id (mkSwitch sw i cs) node_loc st)
       ((fix go (k : nat) (cs : list Case) (st : State) {struct cs}
             : Outcome :=
           match cs with
           | [] => Returned st
           | mkCase _ qs :: cs' =>
               and_then
                 (walk_from 0 qs (node_loc ++ [SStr "cases"; SInt k]) st)
                 (go (S k) cs')
           end) 0 cs)).
  destruct (walk_switch_id (mkSwitch sw i cs) node_loc st) as [st'|e st'];
    [|done].
  unfold Switch.cases. simpl. revert st'. generalize 0 at 2 3.
  induction cs as [|[v qs] cs IH]; intros k st'; [done|].
  simpl. unfold walk.
  destruct (walk_from 0 qs (node_loc ++ [SStr "cases"; SInt k]) st');
    simpl; [apply IH|done].
Qed.

Lemma visits_node_question q node_loc :
  visits_node (NQuestion q) node_loc = [(node_loc, NQuestion q)].
Proof. reflexivity. Qed.

Lemma visits_node_switch s node_loc :
  visits_node (NSwitch s) node_loc =
  (node_loc, NSwitch s) :: visits_cases 0 (Switch.cases s) node_loc.
Proof.
  destruct s as [sw i cs].
  change (visits_node (NSwitch (mkSwitch sw i cs)) node_loc) with
    ((node_loc, NSwitch (mkSwitch sw i cs)) ::
     (fix go (k : nat) (cs : list Case) {struct cs} : list (Loc * Node) :=
        match cs with
        | [] => []
        | mkCase _ qs :: cs' =>
            visits_from 0 qs (node_loc ++ [SStr "cases"; SInt k]) ++
            go (S k) cs'
        end) 0 cs).
  f_equal. unfold Switch.cases. generalize 0 at 2 3.
  induction cs as [|[v qs] cs IH]; intros k; [done|].
  rewrite IH. done.
Qed.

(** ** Sequencing *)

Lemma and_then_assoc o k1 k2 :
  and_then (and_then o k1) k2 = and_then o (λ st, and_then (k1 st) k2).
Proof. by destruct o. Qed.

Lemma run_visits_app vs1 vs2 st :
  run_visits (vs1 ++ vs2) st = and_then (run_visits vs1 st) (run_visits vs2).
Proof.
  revert st. induction vs1 as [|v vs1 IH]; intros st; [done|].
  simpl. destruct (visit st v); simpl; [apply IH|done].
Qed.

(** ** The walk runs the loop body over the visits, in order *)

Section Walk_is_fold.
Let walk_node_fold (n : Node) : Prop :=
  ∀ node_loc st,
    walk_node n node_loc st = run_visits (visits_node n node_loc) st.

Lemma walk_from_fold_aux nodes :
  Forall walk_node_fold nodes →
  ∀ i loc st,
    walk_from i nodes loc st = run_visits (visits_from i nodes loc) st.
Proof.
  induction 1 as [|n nodes Hn _ IH]; intros i loc st; [done|].
  simpl. rewrite run_visits_app, <- Hn.
  destruct (walk_node n _ st); simpl; [apply IH|done].
Qed.

Lemma walk_cases_fold_aux cs :
  Forall (λ c, Forall walk_node_fold (Case.questions c)) cs →
  ∀ k node_loc st,
    walk_cases k cs node_loc st =
    run_visits (visits_cases k cs node_loc) st.
Proof.
  induction 1 as [|c cs Hc _ IH]; intros k node_loc st; [done|].
  simpl. rewrite run_visits_app. unfold walk, visits.
  rewrite <- (walk_from_fold_aux _ Hc).
  destruct (walk_from 0 _ _ st); simpl; [apply IH|done].
Qed.

Lemma walk_node_fold_all n : walk_node_fold n.
Proof.
  induction n as [q|s IH] using Node_ind; intros node_loc st.
  - rewrite walk_node_question, visits_node_question. simpl.
    unfold visit. simpl. by destruct (walk_question q node_loc st).
  - rewrite walk_node_switch, visits_node_switch. simpl.
    unfold visit at 1. simpl.
    destruct (walk_switch_id s node_loc st); simpl; [|done].
    by apply walk_cases_fold_aux.
Qed.
End Walk_is_fold.

Lemma walk_node_visits n node_loc st :
  walk_node n node_loc st = run_visits (visits_node n node_loc) st.
Proof. apply walk_node_fold_all. Qed.

Lemma walk_from_visits i nodes loc st :
  walk_from i nodes loc st = run_visits (visits_from i nodes loc) st.
Proof.
  apply walk_from_fold_aux, Forall_forall. intros n _ l s.
  apply walk_node_visits.
Qed.

Lemma walk_visits nodes loc st :
  walk nodes loc st = run_visits (visits nodes loc) st.
Proof. apply walk_from_visits. Qed.


(** ** The state after the visits, in terms of the events of the tree *)

Lemma register_app ds1 ds2 m :
  register (ds1 ++ ds2) m = register ds2 (register ds1 m).
Proof. revert m. induction ds1 as [|d ds1 IH]; intros m; [done|]. apply IH. Qed.

Lemma walk_answers_spec anss j node_loc st :
  walk_answers j anss node_loc st =
  mkState (errors st) (id_to_node st)
          (refs st ++ answer_refs j anss node_loc).
Proof.
  revert j st. induction anss as [|a anss IH]; intros j st; simpl.
  - rewrite app_nil_r. by destruct st.
  - rewrite IH. destruct (truthy (Answer.goto a)); simpl; [|done].
    by rewrite <- app_assoc.
Qed.

Lemma decl_events_cons v vs :
  decl_events (v :: vs) =
  match decl_of v with
  | Some d => d :: decl_events vs
  | None => decl_events vs
  end.
Proof. reflexivity. Qed.

Lemma ref_events_cons v vs :
  ref_events (v :: vs) = node_refs v ++ ref_events vs.
Proof. reflexivity. Qed.

Lemma decl_events_app vs1 vs2 :
  decl_events (vs1 ++ vs2) = decl_events vs1 ++ decl_events vs2.
Proof. apply omap_app. Qed.

Lemma ref_events_app vs1 vs2 :
  ref_events (vs1 ++ vs2) = ref_events vs1 ++ ref_events vs2.
Proof. apply bind_app. Qed.

Lemma question_refs_spec q node_loc st :
  question_refs q node_loc st =
  mkState (errors st) (id_to_node st)
          (refs st ++ node_refs (node_loc, NQuestion q)).
Proof.
  unfold question_refs, node_refs. rewrite walk_answers_spec. simpl.
  destruct (truthy (Question.next_question q)); simpl; [|done].
  by rewrite <- app_assoc.
Qed.

Lemma declare_spec ident node node_loc st :
  declare ident node node_loc st =
  match id_to_node st !! ident with
  | Some _ => Raised missing_as_error st
  | None =>
      Returned
        (mkState (errors st) (<[ident := node]> (id_to_node st)) (refs st))
  end.
Proof. reflexivity. Qed.

(** The loop body on one visit: it raises when the node declares an
    identifier that is already bound, and otherwise binds the identifier, if
    any, and collects the references of the node. *)
Lemma visit_spec st v :
  visit st v =
  match decl_of v with
  | Some d =>
      match id_to_node st !! decl_id d with
      | Some _ => Raised missing_as_error st
      | None =>
          Returned
            (mkState (errors st)
                     (<[decl_id d := decl_node d]> (id_to_node st))
                     (refs st ++ node_refs v))
      end
  | None =>
      Returned (mkState (errors st) (id_to_node st) (refs st ++ node_refs v))
  end.
Proof.
  destruct v as [l [q|s]]; unfold visit, decl_of; simpl.
  - unfold walk_question. rewrite declare_spec.
    destruct (id_to_node st !! _); simpl; [done|].
    by rewrite question_refs_spec.
  - unfold walk_switch_id, node_refs. simpl.
    destruct (truthy (Switch.id s)); simpl.
    + rewrite declare_spec. destruct (id_to_node st !! _); [done|].
      simpl. by rewrite app_nil_r.
    + rewrite app_nil_r. by destruct st.
Qed.

Lemma state_after_nil st : state_after [] st = st.
Proof. unfold state_after. simpl. rewrite app_nil_r. by destruct st. Qed.

Lemma fresh_nil m : fresh [] m.
Proof. split; [constructor|]. by intros d ?%elem_of_nil. Qed.

Lemma fresh_cons d ds m :
  fresh (d :: ds) m ↔
  m !! decl_id d = None ∧ fresh ds (<[decl_id d := decl_node d]> m).
Proof.
  unfold fresh. rewrite fmap_cons, NoDup_cons. split.
  - intros [[Hnotin Hnd] Hfresh]. split; [apply Hfresh; left|].
    split; [done|]. intros d' Hd'. apply lookup_insert_None.
    split; [apply Hfresh; by right|].
    intros Eid. apply Hnotin, list_elem_of_fmap. eauto.
  - intros [Hd [Hnd Hfresh]]. split; [split; [|done]|].
    + intros [d' [Eid Hd']]%list_elem_of_fmap.
      specialize (Hfresh d' Hd'). rewrite <- Eid in Hfresh.
      by rewrite lookup_insert_eq in Hfresh.
    + intros d' [->|Hd']%elem_of_cons; [done|].
      specialize (Hfresh d' Hd').
      apply lookup_insert_None in Hfresh. tauto.
Qed.

Lemma visit_Returned st v st1 :
  visit st v = Returned st1 →
  (∀ vs, state_after (v :: vs) st = state_after vs st1) ∧
  (∀ vs, fresh (decl_events (v :: vs)) (id_to_node st) ↔
         fresh (decl_events vs) (id_to_node st1)).
Proof.
  rewrite visit_spec.
  destruct (decl_of v) as [d|] eqn:Hd.
  - destruct (id_to_node st !! decl_id d) eqn:Hm; [done|].
    intros [= <-]. split; intros vs.
    + unfold state_after. rewrite decl_events_cons, ref_events_cons, Hd.
      simpl. by rewrite Hm, app_assoc.
    + rewrite decl_events_cons, Hd, fresh_cons. simpl. tauto.
  - intros [= <-]. split; intros vs.
    + unfold state_after. rewrite decl_events_cons, ref_events_cons, Hd.
      simpl. by rewrite app_assoc.
    + by rewrite decl_events_cons, Hd.
Qed.

Lemma visit_Raised st v e st' :
  visit st v = Raised e st' →
  e = missing_as_error ∧ st' = st ∧
  ∃ d, decl_of v = Some d ∧ is_Some (id_to_node st !! decl_id d).
Proof.
  rewrite visit_spec.
  destruct (decl_of v) as [d|] eqn:Hd; [|done].
  destruct (id_to_node st !! decl_id d) eqn:Hm; [|done].
  intros [= <- <-]. split; [done|]. split; [done|]. exists d.
  split; [done|]. by rewrite Hm.
Qed.

(** The visits all return exactly when no declaration among them is a
    duplicate, and the state is then the one after all of them. *)
Lemma run_visits_Returned vs st st' :
  run_visits vs st = Returned st' ↔
  fresh (decl_events vs) (id_to_node st) ∧ st' = state_after vs st.
Proof.
  revert st. induction vs as [|v vs IH]; intros st.
  - simpl. rewrite state_after_nil. split.
    + intros [= <-]. split; [apply fresh_nil|done].
    + by intros [_ ->].
  - simpl run_visits.
    destruct (visit st v) as [st1|e st1] eqn:Hv; cbn [and_then].
    + destruct (visit_Returned _ _ _ Hv) as [Hstate Hfresh].
      rewrite IH, Hstate, (Hfresh vs). done.
    + split; [done|]. intros [Hf _].
      apply visit_Raised in Hv as (_ & _ & d & Hd & [n Hn]).
      rewrite decl_events_cons, Hd in Hf. apply fresh_cons in Hf as [Hf _].
      congruence.
Qed.

(** When a visit raises, it is the first one that declares an identifier
    already bound; the exception is the missing [as_error] and the state is
    the one after the visits before it. *)
Lemma run_visits_Raised vs st e st' :
  run_visits vs st = Raised e st' →
  e = missing_as_error ∧
  ∃ k v d,
    vs !! k = Some v ∧ decl_of v = Some d ∧
    fresh (decl_events (take k vs)) (id_to_node st) ∧
    is_Some (id_to_node st' !! decl_id d) ∧
    st' = state_after (take k vs) st.
Proof.
  revert st. induction vs as [|v vs IH]; intros st; [done|].
  simpl run_visits.
  destruct (visit st v) as [st1|e1 st1] eqn:Hv; cbn [and_then].
  - destruct (visit_Returned _ _ _ Hv) as [Hstate Hfresh].
    intros (-> & k & v' & d' & Hk & Hd' & Hf & Hsome & ->)%IH.
    split; [done|]. exists (S k), v', d'. cbn [take lookup list_lookup].
    rewrite Hstate, (Hfresh (take k vs)). done.
  - intros [= <- <-].
    apply visit_Raised in Hv as (-> & -> & d & Hd & Hsome).
    split; [done|]. exists 0, v, d. simpl. rewrite state_after_nil.
    split; [done|]. split; [done|]. split; [apply fresh_nil|done].
Qed.

Lemma run_visits_not_fresh vs st :
  ¬ fresh (decl_events vs) (id_to_node st) →
  ∃ st', run_visits vs st = Raised missing_as_error st'.
Proof.
  intros Hnot. destruct (run_visits vs st) as [st'|e st'] eqn:E.
  - apply run_visits_Returned in E as [? _]. done.
  - apply run_visits_Raised in E as [-> _]. eauto.
Qed.

(** Returned or raised, the state is the one after a prefix of the visits
    none of whose declarations is a duplicate. *)
Lemma run_visits_state vs st :
  ∃ k,
    outcome_state (run_visits vs st) = state_after (take k vs) st ∧
    fresh (decl_events (take k vs)) (id_to_node st).
Proof.
  destruct (run_visits vs st) as [st'|e st'] eqn:E; simpl.
  - apply run_visits_Returned in E as [Hf ->]. exists (length vs).
    by rewrite firstn_all.
  - apply run_visits_Raised in E as (_ & k & v & d & _ & _ & Hf & _ & ->).
    by exists k.
Qed.

(** ** The reference check *)

Lemma check_ref_spec r st :
  check_ref r st =
  match id_to_node st !! r.2 with
  | Some _ => Returned st
  | None => Raised missing_as_error st
  end.
Proof. reflexivity. Qed.

Lemma check_refs_Returned rs st st' :
  check_refs rs st = Returned st' ↔
  (∀ r, r ∈ rs → is_Some (id_to_node st !! r.2)) ∧ st' = st.
Proof.
  induction rs as [|r rs IH]; simpl.
  - split.
    + intros [= <-]. split; [|done]. by intros r ?%elem_of_nil.
    + by intros [_ ->].
  - rewrite check_ref_spec. destruct (id_to_node st !! r.2) eqn:E; simpl.
    + rewrite IH. split; intros [Hall ->]; (split; [|done]).
      * intros r' [->|Hr']%elem_of_cons; [by rewrite E|by apply Hall].
      * intros r' Hr'. apply Hall. by right.
    + split; [done|]. intros [Hall _].
      destruct (Hall r) as [? Hr]; [left|]. congruence.
Qed.

Lemma check_refs_Raised rs st e st' :
  check_refs rs st = Raised e st' →
  e = missing_as_error ∧ st' = st ∧
  ∃ r, r ∈ rs ∧ id_to_node st !! r.2 = None.
Proof.
  induction rs as [|r rs IH]; simpl; [done|].
  rewrite check_ref_spec. destruct (id_to_node st !! r.2) eqn:E; simpl.
  - intros (-> & -> & r' & Hr' & Hnone)%IH. split; [done|]. split; [done|].
    exists r'. split; [by right|done].
  - intros [= <- <-]. split; [done|]. split; [done|].
    exists r. split; [left|done].
Qed.

Lemma check_refs_state rs st : outcome_state (check_refs rs st) = st.
Proof.
  destruct (check_refs rs st) as [st'|e st'] eqn:E; simpl.
  - by apply check_refs_Returned in E as [_ ->].
  - by apply check_refs_Raised in E as (_ & -> & _).
Qed.


(** ** The registry *)

Lemma register_keeps ds m i x :
  m !! i = Some x → register ds m !! i = Some x.
Proof.
  revert m. induction ds as [|d ds IH]; intros m Hm; [done|].
  simpl. apply IH. destruct (m !! decl_id d) eqn:E; [done|].
  rewrite lookup_insert_ne; [done|]. intros Heq. rewrite Heq in E.
  congruence.
Qed.

Lemma register_dom ds m :
  dom (register ds m) = dom m ∪ list_to_set (decl_id <$> ds).
Proof.
  revert m. induction ds as [|d ds IH]; intros m; simpl.
  - set_solver.
  - rewrite IH. destruct (m !! decl_id d) eqn:E.
    + apply (elem_of_dom_2 (D := gset string)) in E. set_solver.
    + rewrite dom_insert_L. set_solver.
Qed.

Lemma register_is_Some ds m i :
  is_Some (register ds m !! i) ↔ is_Some (m !! i) ∨ i ∈ decl_id <$> ds.
Proof.
  rewrite <- !(elem_of_dom (D := gset string)), register_dom.
  rewrite elem_of_union, elem_of_list_to_set. done.
Qed.

Lemma register_None ds m i :
  register ds m !! i = None ↔ m !! i = None ∧ i ∉ decl_id <$> ds.
Proof.
  rewrite !eq_None_not_Some, register_is_Some. tauto.
Qed.

(** The first declaration of an identifier not yet bound is the one the
    registry keeps. *)
Lemma register_first ds1 d ds2 m :
  m !! decl_id d = None →
  decl_id d ∉ decl_id <$> ds1 →
  register (ds1 ++ d :: ds2) m !! decl_id d = Some (decl_node d).
Proof.
  intros Hm Hds1. rewrite register_app. simpl.
  assert (register ds1 m !! decl_id d = None) as ->
    by by apply register_None.
  apply register_keeps, lookup_insert_eq.
Qed.

Lemma register_lookup_Some ds m i n :
  register ds m !! i = Some n →
  m !! i = Some n ∨
  (m !! i = None ∧
   ∃ k d, ds !! k = Some d ∧ decl_id d = i ∧ decl_node d = n ∧
          i ∉ decl_id <$> take k ds).
Proof.
  revert m. induction ds as [|d ds IH]; intros m Hn; simpl in Hn; [by left|].
  destruct (m !! decl_id d) as [x|] eqn:E.
  - apply IH in Hn as [Hn|(Hm & k & d' & Hk & Hid & Hnode & Hfirst)];
      [by left|]. right. split; [done|].
    exists (S k), d'. simpl. split; [done|]. split; [done|]. split; [done|].
    rewrite not_elem_of_cons. split; [|done]. intros ->. congruence.
  - apply IH in Hn as [Hn|(Hm & k & d' & Hk & Hid & Hnode & Hfirst)].
    + destruct (decide (decl_id d = i)) as [Heq|Hne].
      * rewrite Heq, lookup_insert_eq in Hn. injection Hn as Hn.
        right. rewrite <- Heq. split; [done|]. exists 0, d. simpl.
        split; [done|]. split; [done|]. split; [done|].
        apply not_elem_of_nil.
      * rewrite lookup_insert_ne in Hn by done. by left.
    + apply lookup_insert_None in Hm as [Hm Hne]. right. split; [done|].
      exists (S k), d'. simpl. split; [done|]. split; [done|].
      split; [done|]. rewrite not_elem_of_cons. split; [|done].
      by intros ->.
Qed.

Lemma fresh_empty ds : fresh ds ∅ ↔ NoDup (decl_id <$> ds).
Proof.
  unfold fresh. split; [by intros [? _]|]. intros Hnd. split; [done|].
  intros d _. apply lookup_empty.
Qed.

Lemma fresh_lookup ds m p d :
  fresh ds m → ds !! p = Some d →
  m !! decl_id d = None ∧ decl_id d ∉ decl_id <$> take p ds.
Proof.
  intros [Hnd Hm] Hp. split.
  - apply Hm, list_elem_of_lookup. eauto.
  - rewrite <- (take_drop_middle ds p d Hp), fmap_app, fmap_cons in Hnd.
    apply NoDup_app in Hnd as (_ & Hdisj & _). intros Hin.
    apply (Hdisj _ Hin). left.
Qed.

(** ** Declarations and references of the visits *)

Lemma decl_events_elem d vs :
  d ∈ decl_events vs ↔
  ∃ v, v ∈ vs ∧ effective_id v.2 = Some (decl_id d) ∧
       decl_loc d = v.1 ∧ decl_node d = v.2.
Proof.
  unfold decl_events. rewrite list_elem_of_omap. split.
  - intros (v & Hv & E). exists v. split; [done|]. unfold decl_of in E.
    destruct (effective_id v.2); simpl in E; [|done].
    injection E as <-. done.
  - intros (v & Hv & E & El & En). exists v. split; [done|].
    unfold decl_of. rewrite E. simpl. destruct d. simpl in *. congruence.
Qed.

(** The declaration of the [p]-th visit, as an index in the list of
    declarations. *)
Lemma decl_events_at vs p v d :
  vs !! p = Some v →
  decl_of v = Some d →
  decl_events vs !! length (decl_events (take p vs)) = Some d ∧
  take (length (decl_events (take p vs))) (decl_events vs) =
    decl_events (take p vs).
Proof.
  intros Hp Hd.
  assert (decl_events vs =
          decl_events (take p vs) ++ d :: decl_events (drop (S p) vs)) as ->.
  { rewrite <- (take_drop_middle vs p v Hp) at 1.
    by rewrite decl_events_app, decl_events_cons, Hd. }
  split.
  - by rewrite lookup_app_r, Nat.sub_diag.
  - by rewrite take_app_length.
Qed.

Lemma decl_events_take_prefix k vs :
  decl_events (take k vs) `prefix_of` decl_events vs.
Proof.
  exists (decl_events (drop k vs)).
  by rewrite <- decl_events_app, take_drop.
Qed.

Lemma answer_refs_elem l r j anss node_loc :
  (l, r) ∈ answer_refs j anss node_loc →
  ∃ j', j ≤ j' ∧ l = node_loc ++ [SStr "answers"; SInt j'; SStr "goto"] ∧
        r ≠ "".
Proof.
  revert j. induction anss as [|a anss IH]; intros j Hin; simpl in Hin.
  - by apply elem_of_nil in Hin.
  - apply elem_of_app in Hin as [Hin|Hin].
    + destruct (Answer.goto a) as [g|] eqn:G; simpl in Hin;
        [|by apply elem_of_nil in Hin].
      destruct (String.eqb_spec g ""); simpl in Hin;
        [by apply elem_of_nil in Hin|].
      apply list_elem_of_singleton in Hin. injection Hin as -> ->.
      exists j. split; [lia|done].
    + apply IH in Hin as (j' & ? & ? & ?). exists j'. split; [lia|done].
Qed.

(** A reference is located below the node that holds it, at
    [next_question] or at [answers, j, goto]; its target is never empty. *)
Lemma node_refs_elem l r v :
  (l, r) ∈ node_refs v →
  (l = v.1 ++ [SStr "next_question"] ∨
   ∃ j, l = v.1 ++ [SStr "answers"; SInt j; SStr "goto"]) ∧ r ≠ "".
Proof.
  destruct v as [nl [q|s]]; unfold node_refs; simpl;
    [|by intros ?%elem_of_nil].
  intros [Hin|Hin]%elem_of_app.
  - destruct (Question.next_question q) as [g|] eqn:G; simpl in Hin;
      [|by apply elem_of_nil in Hin].
    destruct (String.eqb_spec g ""); simpl in Hin;
      [by apply elem_of_nil in Hin|].
    apply list_elem_of_singleton in Hin. injection Hin as -> ->. eauto.
  - apply answer_refs_elem in Hin as (j & _ & -> & ?). eauto.
Qed.

Lemma ref_events_elem l r vs :
  (l, r) ∈ ref_events vs ↔ ∃ v, v ∈ vs ∧ (l, r) ∈ node_refs v.
Proof.
  unfold ref_events. rewrite list_elem_of_bind. naive_solver.
Qed.

Lemma answer_refs_lookup j anss node_loc j' a :
  anss !! j' = Some a →
  truthy (Answer.goto a) = true →
  (node_loc ++ [SStr "answers"; SInt (j + j'); SStr "goto"],
   str_of (Answer.goto a)) ∈ answer_refs j anss node_loc.
Proof.
  revert j j'. induction anss as [|a0 anss IH]; intros j [|j'] Hj Ht;
    simpl in *; try done.
  - injection Hj as ->. rewrite Ht, Nat.add_0_r. by left.
  - apply elem_of_app. right. rewrite Nat.add_succ_r.
    by apply (IH (S j) j').
Qed.

(** ** The visits are the positions of the tree *)

Lemma visits_from_elem l n i nodes loc :
  (l, n) ∈ visits_from i nodes loc ↔
  ∃ j n0, nodes !! j = Some n0 ∧
          (l, n) ∈ visits_node n0 (loc ++ [SStr "questions"; SInt (i + j)]).
Proof.
  revert i. induction nodes as [|n1 nodes IH]; intros i; simpl.
  - split; [by intros ?%elem_of_nil|]. by intros (j & n0 & ? & _).
  - rewrite elem_of_app, IH. split.
    + intros [H|(j & n0 & Hj & H)].
      * exists 0, n1. by rewrite Nat.add_0_r.
      * exists (S j), n0. by rewrite Nat.add_succ_r.
    + intros ([|j] & n0 & Hj & H); simpl in Hj.
      * left. injection Hj as ->. by rewrite Nat.add_0_r in H.
      * right. exists j, n0. by rewrite Nat.add_succ_r in H.
Qed.

Lemma visits_cases_elem l n k cs node_loc :
  (l, n) ∈ visits_cases k cs node_loc ↔
  ∃ k' c, cs !! k' = Some c ∧
          (l, n) ∈ visits (Case.questions c)
                     (node_loc ++ [SStr "cases"; SInt (k + k')]).
Proof.
  revert k. induction cs as [|c1 cs IH]; intros k; simpl.
  - split; [by intros ?%elem_of_nil|]. by intros (j & n0 & ? & _).
  - rewrite elem_of_app, IH. split.
    + intros [H|(j & c & Hj & H)].
      * exists 0, c1. by rewrite Nat.add_0_r.
      * exists (S j), c. by rewrite Nat.add_succ_r.
    + intros ([|j] & c & Hj & H); simpl in Hj.
      * left. injection Hj as ->. by rewrite Nat.add_0_r in H.
      * right. exists j, c. by rewrite Nat.add_succ_r in H.
Qed.

Section Visits_are_positions.
(** [n] sits at the relative path [p] below the node [n0]. *)
Let under (n0 : Node) (p : Loc) (n : Node) : Prop :=
  (p = [] ∧ n = n0) ∨
  ∃ s k c p', n0 = NSwitch s ∧ Switch.cases s !! k = Some c ∧
              p = [SStr "cases"; SInt k] ++ p' ∧
              node_at (Case.questions c) p' n.

Let reached (n0 : Node) : Prop :=
  ∀ node_loc l n,
    (l, n) ∈ visits_node n0 node_loc ↔ ∃ p, l = node_loc ++ p ∧ under n0 p n.

Lemma node_at_under nodes path n :
  node_at nodes path n ↔
  ∃ j n0 p, nodes !! j = Some n0 ∧
            path = [SStr "questions"; SInt j] ++ p ∧ under n0 p n.
Proof.
  split.
  - intros [ns i m Hi|ns i s k c p m Hi Hk Hp].
    + exists i, m, []. split; [done|]. split; [done|]. by left.
    + exists i, (NSwitch s), ([SStr "cases"; SInt k] ++ p).
      split; [done|]. split; [done|]. right. by exists s, k, c, p.
  - intros (j & n0 & p & Hj & -> & [[-> ->]|(s & k & c & p' & -> & Hk & -> & H)]).
    + by constructor.
    + by apply (node_at_case nodes j s k c p' n).
Qed.

Lemma visits_positions_aux nodes :
  Forall reached nodes →
  ∀ loc l n,
    (l, n) ∈ visits nodes loc ↔ ∃ p, l = loc ++ p ∧ node_at nodes p n.
Proof.
  intros Hall loc l n. unfold visits. rewrite visits_from_elem.
  rewrite Forall_lookup in Hall. split.
  - intros (j & n0 & Hj & Hin).
    apply (Hall _ _ Hj) in Hin as (p & -> & Hp).
    exists ([SStr "questions"; SInt j] ++ p).
    split; [by rewrite <- app_assoc|]. apply node_at_under.
    by exists j, n0, p.
  - intros (path & -> & (j & n0 & p & Hj & -> & Hp)%node_at_under).
    exists j, n0. split; [done|]. apply (Hall _ _ Hj).
    exists p. split; [by rewrite <- app_assoc|done].
Qed.

Lemma visits_node_positions n0 : reached n0.
Proof.
  induction n0 as [q|s IH] using Node_ind; intros node_loc l n.
  - rewrite visits_node_question, list_elem_of_singleton. split.
    + intros [= -> ->]. exists []. split; [by rewrite app_nil_r|by left].
    + intros (p & -> & [[-> ->]|(s & k & c & p' & [=] & _)]).
      by rewrite app_nil_r.
  - rewrite visits_node_switch, elem_of_cons, visits_cases_elem.
    rewrite Forall_lookup in IH. split.
    + intros [[= -> ->]|(k & c & Hk & Hin)].
      * exists []. split; [by rewrite app_nil_r|by left].
      * apply (visits_positions_aux _ (IH _ _ Hk)) in Hin as (p & -> & Hp).
        exists ([SStr "cases"; SInt k] ++ p).
        split; [by rewrite <- app_assoc|]. right. by exists s, k, c, p.
    + intros (p & -> & [[-> ->]|(s' & k & c & p' & [= <-] & Hk & -> & Hp)]).
      * left. by rewrite app_nil_r.
      * right. exists k, c. split; [done|].
        apply (visits_positions_aux _ (IH _ _ Hk)).
        exists p'. split; [by rewrite <- app_assoc|done].
Qed.
End Visits_are_positions.

Lemma visits_positions nodes loc l n :
  (l, n) ∈ visits nodes loc ↔ ∃ p, l = loc ++ p ∧ node_at nodes p n.
Proof.
  apply visits_positions_aux, Forall_forall. intros n0 _.
  apply visits_node_positions.
Qed.

Lemma visits_at nodes loc i node :
  nodes !! i = Some node →
  (loc ++ [SStr "questions"; SInt i], node) ∈ visits nodes loc.
Proof.
  intros Hi. apply visits_from_elem. exists i, node. split; [done|].
  simpl. destruct node as [q|[sw j cs]]; left.
Qed.

(** ** One run, in terms of the events of the tree *)

Lemma walk_Returned nodes loc st st' :
  walk nodes loc st = Returned st' ↔
  fresh (decl_events (visits nodes loc)) (id_to_node st) ∧
  st' = state_after (visits nodes loc) st.
Proof. rewrite walk_visits. apply run_visits_Returned. Qed.

Lemma walk_state nodes loc st :
  ∃ k,
    outcome_state (walk nodes loc st) =
      state_after (take k (visits nodes loc)) st ∧
    fresh (decl_events (take k (visits nodes loc))) (id_to_node st).
Proof. rewrite walk_visits. apply run_visits_state. Qed.

Lemma walk_errors nodes loc st :
  errors (outcome_state (walk nodes loc st)) = errors st.
Proof. by destruct (walk_state nodes loc st) as (k & -> & _). Qed.

Lemma run_state self :
  outcome_state (run self) =
  outcome_state (walk (Questionnaire.questions self) [] init_state).
Proof.
  unfold run.
  destruct (walk (Questionnaire.questions self) [] init_state); simpl;
    [apply check_refs_state|done].
Qed.

(** Nothing is ever appended to [errors]. *)
Lemma violations_nil self : violations self = [].
Proof. unfold violations. by rewrite run_state, walk_errors. Qed.

Lemma run_Raised self e st :
  run self = Raised e st → e = missing_as_error.
Proof.
  unfold run.
  destruct (walk (Questionnaire.questions self) [] init_state)
    as [st1|e1 st1] eqn:E; simpl.
  - by intros (-> & _)%check_refs_Raised.
  - intros [= <- <-]. rewrite walk_visits in E.
    by apply run_visits_Raised in E as [-> _].
Qed.

(** The only exception validation raises is the missing [as_error]. *)
Lemma validate_inl self e :
  validate_and_build_id_map self = inl e → e = missing_as_error.
Proof.
  unfold validate_and_build_id_map.
  destruct (run self) as [st|e1 st] eqn:E.
  - assert (errors st = []) as ->; [|done].
    change st with (outcome_state (Returned st)). rewrite <- E.
    apply violations_nil.
  - intros [= <-]. by eapply run_Raised.
Qed.

Lemma walk_Returned_run self st :
  walk (Questionnaire.questions self) [] init_state = Returned st →
  registry self = register (declarations self) ∅ ∧
  references self = ref_events (visits (Questionnaire.questions self) []) ∧
  id_to_node st = registry self ∧ refs st = references self ∧
  errors st = [] ∧
  NoDup (decl_id <$> declarations self).
Proof.
  intros E. unfold registry, references. rewrite E.
  apply walk_Returned in E as [Hf ->]. unfold state_after. simpl.
  repeat split; try done. exact (proj1 (fresh_empty _) Hf).
Qed.

(** Validation returns exactly when no identifier is declared twice and
    every reference of the tree has a declared target; the published map is
    then the registry of all the declarations. *)
Lemma validate_inr self self' :
  validate_and_build_id_map self = inr self' ↔
  NoDup (decl_id <$> declarations self) ∧
  (∀ r, r ∈ ref_events (visits (Questionnaire.questions self) []) →
        r.2 ∈ decl_id <$> declarations self) ∧
  self' =
    Questionnaire.mk
      (Questionnaire.initial_template self)
      (Questionnaire.initial_commentary self)
      (Questionnaire.feedback_url self)
      (Questionnaire.questions self)
      (register (declarations self) ∅).
Proof.
  unfold validate_and_build_id_map, run.
  destruct (walk (Questionnaire.questions self) [] init_state)
    as [st|e st] eqn:E; simpl.
  - apply walk_Returned in E as [Hf ->]. apply fresh_empty in Hf.
    fold (declarations self) in *.
    destruct (check_refs _ _) as [st'|e st'] eqn:C.
    + apply check_refs_Returned in C as [Hall ->]. simpl in *. split.
      * intros [= <-]. split; [done|]. split; [|done].
        intros r Hr. destruct (Hall r) as [n Hn]; [done|].
        apply register_lookup_Some in Hn
          as [Hn|(_ & k & d & Hk & <- & _)];
          [by rewrite lookup_empty in Hn|].
        apply list_elem_of_fmap. exists d. split; [done|].
        apply list_elem_of_lookup. eauto.
      * by intros (_ & _ & ->).
    + apply check_refs_Raised in C as (_ & _ & r & Hr & Hnone).
      simpl in *. split; [done|]. intros (_ & Hall & _).
      apply eq_None_not_Some in Hnone. destruct Hnone.
      apply register_is_Some. right. by apply Hall.
  - split; [done|]. intros (Hnd & _).
    rewrite walk_visits in E.
    apply run_visits_Raised in E as (_ & k & v & d & Hk & Hd & _ & Hsome & ->).
    unfold state_after in Hsome. simpl in Hsome.
    apply register_is_Some in Hsome as [[? Hsome]|Hsome];
      [by rewrite lookup_empty in Hsome|].
    destruct (decl_events_at _ _ _ _ Hk Hd) as [Hp Htake].
    apply fresh_empty in Hnd.
    destruct (fresh_lookup _ _ _ _ Hnd Hp) as [_ Hnotin].
    unfold declarations in Hnotin. by rewrite Htake in Hnotin.
Qed.


(** ** Splitting the loops at an index *)

Lemma walk_from_app i nodes1 nodes2 loc st :
  walk_from i (nodes1 ++ nodes2) loc st =
  and_then (walk_from i nodes1 loc st)
           (walk_from (i + length nodes1) nodes2 loc).
Proof.
  revert i st. induction nodes1 as [|n nodes1 IH]; intros i st; simpl.
  - by rewrite Nat.add_0_r.
  - rewrite and_then_assoc. destruct (walk_node n _ st); simpl; [|done].
    by rewrite IH, Nat.add_succ_r.
Qed.

Lemma walk_cases_app k cs1 cs2 node_loc st :
  walk_cases k (cs1 ++ cs2) node_loc st =
  and_then (walk_cases k cs1 node_loc st)
           (walk_cases (k + length cs1) cs2 node_loc).
Proof.
  revert k st. induction cs1 as [|c cs1 IH]; intros k st; simpl.
  - by rewrite Nat.add_0_r.
  - rewrite and_then_assoc. destruct (walk _ _ st); simpl; [|done].
    by rewrite IH, Nat.add_succ_r.
Qed.

Lemma walk_at nodes loc st i node :
  nodes !! i = Some node →
  walk nodes loc st =
  and_then (walk (take i nodes) loc st)
    (λ st1,
       and_then (walk_node node (loc ++ [SStr "questions"; SInt i]) st1)
                (walk_from (S i) (drop (S i) nodes) loc)).
Proof.
  intros Hi. unfold walk.
  rewrite <- (take_drop_middle nodes i node Hi) at 1.
  rewrite walk_from_app. simpl.
  rewrite length_take_le by (apply lookup_lt_Some in Hi; lia). done.
Qed.

Lemma walk_cases_at cs node_loc st k c :
  cs !! k = Some c →
  walk_cases 0 cs node_loc st =
  and_then (walk_cases 0 (take k cs) node_loc st)
    (λ st1,
       and_then
         (walk (Case.questions c) (node_loc ++ [SStr "cases"; SInt k]) st1)
         (walk_cases (S k) (drop (S k) cs) node_loc)).
Proof.
  intros Hk. rewrite <- (take_drop_middle cs k c Hk) at 1.
  rewrite walk_cases_app. simpl.
  rewrite length_take_le by (apply lookup_lt_Some in Hk; lia). done.
Qed.

(** The references of a visited node are among the references a walk that
    returns has collected. *)
Lemma visited_refs_collected nodes loc st st' v r :
  walk nodes loc st = Returned st' →
  v ∈ visits nodes loc → r ∈ node_refs v → r ∈ refs st'.
Proof.
  intros [_ ->]%walk_Returned Hv Hr. simpl. apply elem_of_app. right.
  destruct r as [l t]. apply ref_events_elem. eauto.
Qed.

Lemma NoDup_walk_Returned self :
  NoDup (decl_id <$> declarations self) →
  walk (Questionnaire.questions self) [] init_state =
  Returned (state_after (visits (Questionnaire.questions self) []) init_state).
Proof. intros Hnd. apply walk_Returned. split; [|done]. by apply fresh_empty. Qed.

Lemma two_declarations_not_NoDup (ds : list Decl) q p d1 d :
  ds !! q = Some d1 → ds !! p = Some d → q < p → decl_id d = decl_id d1 →
  ¬ NoDup (decl_id <$> ds).
Proof.
  intros Hq Hp Hlt Hid Hnd.
  assert (q = p); [|lia].
  eapply NoDup_lookup; [exact Hnd| |].
  - by rewrite list_lookup_fmap, Hq.
  - by rewrite list_lookup_fmap, Hp, <- Hid.
Qed.

(** A tree with an identifier declared twice makes validation raise the
    missing [as_error]. *)
Lemma not_NoDup_validate self :
  ¬ NoDup (decl_id <$> declarations self) →
  validate_and_build_id_map self = inl missing_as_error ∧
  ∃ st,
    walk (Questionnaire.questions self) [] init_state =
    Raised missing_as_error st.
Proof.
  intros Hnot. split.
  - destruct (validate_and_build_id_map self) as [e|self'] eqn:E.
    + by apply validate_inl in E as ->.
    + by apply validate_inr in E as [Hnd _].
  - rewrite walk_visits. apply run_visits_not_fresh.
    by intros Hf%fresh_empty.
Qed.

(** * The claims *)

(** C1.  When no two visited nodes declare the same effective identifier and
    the target of every reference is a declared identifier, validation
    returns the questionnaire, and its published identifier map binds every
    declared identifier to the node that declared it: [get_node] returns that
    node, in particular for a [Question] without [id] looked up by its
    [question] text; the map has no other key. *)
Theorem valid_tree_validates self :
  NoDup (decl_id <$> declarations self) →
  (∀ r, r ∈ references self → r.2 ∈ decl_id <$> declarations self) →
  ∃ self',
    validate_and_build_id_map self = inr self' ∧
    (∀ d, d ∈ declarations self →
       Questionnaire._question_map self' !! decl_id d = Some (decl_node d) ∧
       get_node self' (decl_id d) = Some (decl_node d)) ∧
    (∀ l q, (l, NQuestion q) ∈ visits (Questionnaire.questions self) [] →
       truthy (Question.id q) = false →
       get_node self' (Question.question q) = Some (NQuestion q)) ∧
    (∀ i, is_Some (get_node self' i) → i ∈ decl_id <$> declarations self).
Proof.
  intros Hnd Hrefs.
  pose proof (NoDup_walk_Returned self Hnd) as Hwalk.
  destruct (walk_Returned_run _ _ Hwalk) as (_ & Href & _).
  rewrite Href in Hrefs.
  assert (∀ d, d ∈ declarations self →
            register (declarations self) ∅ !! decl_id d =
            Some (decl_node d)) as Hbound.
  { intros d (ds1 & ds2 & E)%list_elem_of_split. rewrite E.
    apply register_first; [apply lookup_empty|].
    rewrite E, fmap_app, fmap_cons in Hnd.
    apply NoDup_app in Hnd as (_ & Hdisj & _). intros Hin.
    apply (Hdisj _ Hin). left. }
  eexists. split; [by apply validate_inr|].
  unfold get_node. simpl. split; [by intros d Hd; split; apply Hbound|].
  split.
  - intros l q Hin Hid.
    apply (Hbound (mkDecl l (Question.question q) (NQuestion q))).
    apply decl_events_elem. exists (l, NQuestion q). simpl. by rewrite Hid.
  - intros i Hi.
    apply register_is_Some in Hi as [[? Hi]|Hi]; [|done].
    by rewrite lookup_empty in Hi.
Qed.

Lemma valid_tree_validates_witness :
  NoDup (decl_id <$> declarations sample_switch) ∧
  (∃ self',
     validate_and_build_id_map sample_switch = inr self' ∧
     get_node self' "right?" =
       Some (ask "right?" None None []) ∧
     is_Some (get_node self' "s1")).
Proof.
  assert (NoDup (decl_id <$> declarations sample_switch)) as Hnd.
  { refine (bool_decide_unpack _ _). vm_compute. exact I. }
  split; [done|].
  destruct (valid_tree_validates sample_switch Hnd) as (self' & E & Hd & Hq & _).
  { apply Forall_forall. refine (bool_decide_unpack _ _). vm_compute.
    exact I. }
  exists self'. split; [done|]. split.
  - apply (Hq [SStr "questions"; SInt 0; SStr "cases"; SInt 1;
               SStr "questions"; SInt 0] (Question.mk "right?" None None [] None));
      [|done].
    vm_compute. do 2 right. left.
  - eexists.
    refine (proj2 (Hd (mkDecl [SStr "questions"; SInt 0] "s1" _) _)).
    apply list_elem_of_lookup. exists 0. reflexivity.
Defined.

(** C4.  References are checked only once the walk has returned, against the
    registry it has completed.  Then a reference whose target is declared by
    some node of the tree, wherever that node is visited (before or after the
    reference, in the same sequence or in another branch), is resolved: the
    target is a key of the registry, the check of this reference raises
    nothing and records nothing, no violation is attached to its location
    and no [invalid_reference] error cites the target. *)
Theorem declared_reference_resolves self st p l r q d :
  walk (Questionnaire.questions self) [] init_state = Returned st →
  references self !! p = Some (l, r) →
  declarations self !! q = Some d →
  decl_id d = r →
  is_Some (registry self !! r) ∧
  check_ref (l, r) st = Returned st ∧
  errors_at l (violations self) = 0 ∧
  ∀ l', mkError (invalid_reference r) l' ∉ violations self.
Proof.
  intros Hwalk Hp Hq Hid.
  destruct (walk_Returned_run _ _ Hwalk) as (Hreg & _ & Hst & _).
  assert (is_Some (registry self !! r)) as Hsome.
  { rewrite Hreg. apply register_is_Some. right.
    apply list_elem_of_fmap. exists d. split; [done|].
    apply list_elem_of_lookup. eauto. }
  split; [done|]. split.
  - rewrite check_ref_spec, Hst. simpl. by destruct Hsome as [n ->].
  - rewrite violations_nil. split; [done|]. intros l'. apply not_elem_of_nil.
Qed.

Lemma declared_reference_resolves_witness :
  is_Some (registry sample_switch !! "right?") ∧
  is_Some (registry sample_forward !! "second?").
Proof.
  split.
  - refine (proj1 (declared_reference_resolves sample_switch _ 0
              [SStr "questions"; SInt 0; SStr "cases"; SInt 0;
               SStr "questions"; SInt 0; SStr "next_question"] "right?" 2
              (mkDecl [SStr "questions"; SInt 0; SStr "cases"; SInt 1;
                       SStr "questions"; SInt 0] "right?"
                 (ask "right?" None None [])) _ _ _ _)); reflexivity.
  - refine (proj1 (declared_reference_resolves sample_forward _ 0
              [SStr "questions"; SInt 0; SStr "next_question"] "second?" 1
              (mkDecl [SStr "questions"; SInt 1] "second?"
                 (ask "second?" None None [reply "ok" None])) _ _ _ _));
      reflexivity.
Defined.

(** C5.  The element at index [i] of a sequence walked with location [loc]
    is handled with the location [loc ++ ["questions"; i]]: the loop body
    runs on it with that location, after the elements before it and before
    those after it.  When the walk, or the loop body on that element,
    returns, the [next_question] of a [Question] has been collected at that
    location extended with ["next_question"], the [goto] of its [j]-th
    answer at that location extended with ["answers"; j; "goto"].  The [k]-th case of a [Switch] is
    walked with the location of the switch extended with ["cases"; k], so
    that the element at index [j] of the case is handled with
    ["cases"; k; "questions"; j] appended to the location of the switch. *)
Theorem locations_as_specified nodes loc st i node :
  nodes !! i = Some node →
  walk nodes loc st =
    and_then (walk (take i nodes) loc st)
      (λ st1,
         and_then (walk_node node (loc ++ [SStr "questions"; SInt i]) st1)
                  (walk_from (S i) (drop (S i) nodes) loc)) ∧
  (∀ q st', node = NQuestion q →
     (walk nodes loc st = Returned st' ∨
      ∃ st1, walk_node node (loc ++ [SStr "questions"; SInt i]) st1 =
             Returned st') →
     (truthy (Question.next_question q) = true →
      (loc ++ [SStr "questions"; SInt i; SStr "next_question"],
       str_of (Question.next_question q)) ∈ refs st') ∧
     (∀ j a, Question.answers q !! j = Some a →
        truthy (Answer.goto a) = true →
        (loc ++ [SStr "questions"; SInt i; SStr "answers"; SInt j;
                 SStr "goto"],
         str_of (Answer.goto a)) ∈ refs st')) ∧
  (∀ s k c, node = NSwitch s → Switch.cases s !! k = Some c →
     (∀ st',
        walk_node node (loc ++ [SStr "questions"; SInt i]) st' =
        and_then (walk_switch_id s (loc ++ [SStr "questions"; SInt i]) st')
          (λ st1,
             and_then
               (walk_cases 0 (take k (Switch.cases s))
                  (loc ++ [SStr "questions"; SInt i]) st1)
               (λ st2,
                  and_then
                    (walk (Case.questions c)
                       (loc ++ [SStr "questions"; SInt i; SStr "cases";
                                SInt k]) st2)
                    (walk_cases (S k) (drop (S k) (Switch.cases s))
                       (loc ++ [SStr "questions"; SInt i]))))) ∧
     (∀ j n st',
        Case.questions c !! j = Some n →
        walk (Case.questions c)
          (loc ++ [SStr "questions"; SInt i; SStr "cases"; SInt k]) st' =
        and_then
          (walk (take j (Case.questions c))
             (loc ++ [SStr "questions"; SInt i; SStr "cases"; SInt k]) st')
          (λ st1,
             and_then
               (walk_node n
                  (loc ++ [SStr "questions"; SInt i; SStr "cases"; SInt k;
                           SStr "questions"; SInt j]) st1)
               (walk_from (S j) (drop (S j) (Case.questions c))
                  (loc ++ [SStr "questions"; SInt i; SStr "cases";
                           SInt k]))))).
Proof.
  intros Hi. split; [by apply walk_at|]. split.
  - intros q st' -> Hret.
    assert (∀ r, r ∈ node_refs (loc ++ [SStr "questions"; SInt i],
                              NQuestion q) → r ∈ refs st') as Hcollected.
    { intros r Hr. destruct Hret as [Hwalk|[st1 Hnode]].
      - apply (visited_refs_collected _ _ _ _ _ _ Hwalk
                 (visits_at nodes loc i _ Hi) Hr).
      - rewrite walk_node_visits, visits_node_question in Hnode.
        apply run_visits_Returned in Hnode as [_ ->]. simpl.
        apply elem_of_app. right. unfold ref_events. simpl.
        by rewrite app_nil_r. }
    split.
    + intros Ht. apply Hcollected.
      unfold node_refs. simpl. rewrite Ht, <- app_assoc. left.
    + intros j a Hj Ht. apply Hcollected.
      unfold node_refs. simpl. apply elem_of_app. right.
      replace (loc ++ [SStr "questions"; SInt i; SStr "answers"; SInt j;
                       SStr "goto"])
        with ((loc ++ [SStr "questions"; SInt i]) ++
              [SStr "answers"; SInt (0 + j); SStr "goto"])
        by by rewrite <- app_assoc.
      by apply answer_refs_lookup.
  - intros s k c -> Hk. split.
    + intros st'. rewrite walk_node_switch.
      destruct (walk_switch_id s _ st'); simpl; [|done].
      by rewrite (walk_cases_at _ _ _ k c Hk), <- app_assoc.
    + intros j n st' Hj. rewrite (walk_at _ _ _ j n Hj).
      by rewrite <- app_assoc.
Qed.

Lemma locations_as_specified_witness :
  ([SStr "questions"; SInt 0; SStr "next_question"], "gone")
    ∈ references sample_missing ∧
  ([SStr "questions"; SInt 0; SStr "answers"; SInt 1; SStr "goto"],
   "missing") ∈ references sample_missing.
Proof.
  destruct (locations_as_specified (Questionnaire.questions sample_missing)
              [] init_state 0
              (ask "a?" None (Some "gone") [reply "x" (Some "a?");
                                            reply "y" (Some "missing")])
              eq_refl) as (_ & Hq & _).
  destruct (Hq _ _ eq_refl (or_introl eq_refl)) as [Hnext Hgoto]. split.
  - exact (Hnext eq_refl).
  - exact (Hgoto 1 (reply "y" (Some "missing")) eq_refl eq_refl).
Defined.

(** C10.  A successful validation returns the questionnaire it was given
    with [_question_map] assigned and nothing else changed: the template,
    the commentary, the feedback URL and the questions are the same. *)
Theorem validation_frame self self' :
  validate_and_build_id_map self = inr self' →
  Questionnaire.initial_template self' = Questionnaire.initial_template self ∧
  Questionnaire.initial_commentary self' =
    Questionnaire.initial_commentary self ∧
  Questionnaire.feedback_url self' = Questionnaire.feedback_url self ∧
  Questionnaire.questions self' = Questionnaire.questions self ∧
  self' =
    Questionnaire.mk
      (Questionnaire.initial_template self)
      (Questionnaire.initial_commentary self)
      (Questionnaire.feedback_url self)
      (Questionnaire.questions self)
      (registry self).
Proof.
  intros (Hnd & _ & ->)%validate_inr.
  destruct (walk_Returned_run _ _ (NoDup_walk_Returned self Hnd))
    as (-> & _).
  done.
Qed.

Lemma validation_frame_witness :
  ∃ self',
    validate_and_build_id_map sample_forward = inr self' ∧
    Questionnaire.questions self' = Questionnaire.questions sample_forward ∧
    Questionnaire.initial_template self' = "template".
Proof.
  eexists. split; [reflexivity|].
  pose proof (validation_frame sample_forward _ eq_refl) as (Ht & _ & _ & Hq & _).
  split; [exact Hq|exact Ht].
Defined.


(** ** Rewriting optional fields without changing the events *)

Lemma map_nodes_switch fq fi s :
  map_nodes fq fi (NSwitch s) =
  NSwitch (mkSwitch (Switch.switch s) (fi (Switch.id s))
                    (map_case fq fi <$> Switch.cases s)).
Proof.
  destruct s as [sw i cs]. simpl. do 2 f_equal.
  apply list_fmap_ext. by intros _ [v qs] _.
Qed.

Section Same_events.
Variable fq : Question.t → Question.t.
Variable fi : option string → option string.
Hypothesis fq_id :
  ∀ q, effective_id (NQuestion (fq q)) = effective_id (NQuestion q).
Hypothesis fq_refs :
  ∀ l q, node_refs (l, NQuestion (fq q)) = node_refs (l, NQuestion q).
Hypothesis fi_id :
  ∀ i, (if truthy (fi i) then Some (str_of (fi i)) else None) =
       (if truthy i then Some (str_of i) else None).

Let f := map_nodes fq fi.
Let fv (v : Loc * Node) : Loc * Node := (v.1, f v.2).
Let fd (d : Decl) : Decl := mkDecl (decl_loc d) (decl_id d) (f (decl_node d)).

Lemma map_nodes_effective_id n : effective_id (f n) = effective_id n.
Proof.
  destruct n as [q|s]; [apply fq_id|]. unfold f.
  rewrite map_nodes_switch. simpl. apply fi_id.
Qed.

Lemma map_nodes_decl_of v : decl_of (fv v) = fd <$> decl_of v.
Proof.
  unfold decl_of. simpl. rewrite map_nodes_effective_id.
  by destruct (effective_id v.2).
Qed.

Lemma map_nodes_node_refs v : node_refs (fv v) = node_refs v.
Proof.
  destruct v as [l [q|s]]; [apply fq_refs|]. by destruct s.
Qed.

Lemma map_nodes_visits_from_aux nodes :
  Forall (λ n, ∀ l, visits_node (f n) l = fv <$> visits_node n l) nodes →
  ∀ i loc, visits_from i (f <$> nodes) loc = fv <$> visits_from i nodes loc.
Proof.
  induction 1 as [|n nodes Hn _ IH]; intros i loc; [done|].
  simpl. by rewrite fmap_app, Hn, IH.
Qed.

Lemma map_nodes_visits_node n l :
  visits_node (f n) l = fv <$> visits_node n l.
Proof.
  revert l. induction n as [q|s IH] using Node_ind; intros l; [done|].
  unfold f. rewrite map_nodes_switch, !visits_node_switch. simpl.
  rewrite <- map_nodes_switch. f_equal.
  generalize 0. induction IH as [|c cs Hc _ IHcs]; intros k; [done|].
  simpl. rewrite fmap_app, IHcs. f_equal.
  by apply map_nodes_visits_from_aux.
Qed.

Lemma map_nodes_visits nodes loc :
  visits (f <$> nodes) loc = fv <$> visits nodes loc.
Proof.
  apply map_nodes_visits_from_aux, Forall_forall. intros n _.
  apply map_nodes_visits_node.
Qed.

Lemma map_nodes_visit st v :
  visit (map_state fq fi st) (fv v) = map_outcome fq fi (visit st v).
Proof.
  rewrite !visit_spec, map_nodes_decl_of, map_nodes_node_refs.
  destruct (decl_of v) as [d|]; simpl; [|done].
  rewrite lookup_fmap. destruct (id_to_node st !! decl_id d); simpl; [done|].
  unfold map_state. simpl. by rewrite fmap_insert.
Qed.

Lemma map_nodes_run_visits vs st :
  run_visits (fv <$> vs) (map_state fq fi st) =
  map_outcome fq fi (run_visits vs st).
Proof.
  revert st. induction vs as [|v vs IH]; intros st; [done|].
  simpl. rewrite map_nodes_visit.
  destruct (visit st v); simpl; [apply IH|done].
Qed.

Lemma map_nodes_check_refs rs st :
  check_refs rs (map_state fq fi st) = map_outcome fq fi (check_refs rs st).
Proof.
  induction rs as [|r rs IH]; [done|]. simpl.
  rewrite !check_ref_spec. simpl. rewrite lookup_fmap.
  destruct (id_to_node st !! r.2); simpl; [apply IH|done].
Qed.

Lemma map_nodes_walk nodes loc st :
  walk (f <$> nodes) loc (map_state fq fi st) =
  map_outcome fq fi (walk nodes loc st).
Proof. by rewrite !walk_visits, map_nodes_visits, map_nodes_run_visits. Qed.

Lemma map_state_init : map_state fq fi init_state = init_state.
Proof. unfold map_state, init_state. simpl. by rewrite fmap_empty. Qed.

Lemma map_questionnaire_walk self :
  walk (Questionnaire.questions (map_questionnaire fq fi self)) []
    init_state =
  map_outcome fq fi (walk (Questionnaire.questions self) [] init_state).
Proof. simpl. by rewrite <- map_state_init at 1; rewrite map_nodes_walk. Qed.

Lemma map_questionnaire_run_outcome self :
  run (map_questionnaire fq fi self) = map_outcome fq fi (run self).
Proof.
  unfold run. rewrite map_questionnaire_walk.
  destruct (walk (Questionnaire.questions self) [] init_state); simpl;
    [apply map_nodes_check_refs|done].
Qed.

Lemma map_questionnaire_run self :
  violations (map_questionnaire fq fi self) = violations self ∧
  references (map_questionnaire fq fi self) = references self ∧
  registry (map_questionnaire fq fi self) = f <$> registry self ∧
  ((∃ self', validate_and_build_id_map (map_questionnaire fq fi self) =
             inr self') ↔
   (∃ self', validate_and_build_id_map self = inr self')) ∧
  (∀ e, validate_and_build_id_map (map_questionnaire fq fi self) = inl e ↔
        validate_and_build_id_map self = inl e).
Proof.
  unfold violations, references, registry, validate_and_build_id_map.
  rewrite map_questionnaire_run_outcome, map_questionnaire_walk.
  split; [by destruct (run self)|].
  split; [by destruct (walk _ _ _)|].
  split; [by destruct (walk _ _ _)|].
  destruct (run self) as [st|e st]; simpl.
  - destruct (errors st); split.
    + split; eauto.
    + done.
    + split; by intros [? ?].
    + done.
  - split; [split; by intros [? ?]|done].
Qed.
End Same_events.

Lemma truthy_blank x : truthy (blank_to_none x) = truthy x.
Proof. unfold blank_to_none. by destruct (truthy x) eqn:E. Qed.

Lemma str_of_blank x : truthy x = true → str_of (blank_to_none x) = str_of x.
Proof. unfold blank_to_none. by intros ->. Qed.

Lemma blank_answer_refs j anss l :
  answer_refs j (blank_answer <$> anss) l = answer_refs j anss l.
Proof.
  revert j. induction anss as [|a anss IH]; intros j; [done|]. simpl.
  rewrite IH, truthy_blank. destruct (truthy (Answer.goto a)) eqn:E; [|done].
  by rewrite str_of_blank.
Qed.

Lemma blank_run self :
  violations (map_questionnaire blank_question blank_to_none self) =
    violations self ∧
  references (map_questionnaire blank_question blank_to_none self) =
    references self ∧
  registry (map_questionnaire blank_question blank_to_none self) =
    map_nodes blank_question blank_to_none <$> registry self ∧
  ((∃ self', validate_and_build_id_map
               (map_questionnaire blank_question blank_to_none self) =
             inr self') ↔
   (∃ self', validate_and_build_id_map self = inr self')) ∧
  (∀ e, validate_and_build_id_map
          (map_questionnaire blank_question blank_to_none self) = inl e ↔
        validate_and_build_id_map self = inl e).
Proof.
  apply map_questionnaire_run.
  - intros q. simpl. rewrite truthy_blank.
    destruct (truthy (Question.id q)) eqn:E; [|done]. by rewrite str_of_blank.
  - intros l q. unfold node_refs. simpl.
    rewrite blank_answer_refs, truthy_blank.
    destruct (truthy (Question.next_question q)) eqn:E; [|done].
    by rewrite str_of_blank.
  - intros i. rewrite truthy_blank. destruct (truthy i) eqn:E; [|done].
    by rewrite str_of_blank.
Qed.

Lemma references_elem self r :
  r ∈ references self →
  r ∈ ref_events (visits (Questionnaire.questions self) []).
Proof.
  unfold references.
  destruct (walk_state (Questionnaire.questions self) [] init_state)
    as (k & -> & _).
  simpl. intros Hr. rewrite <- (take_drop k (visits _ _)), ref_events_app.
  apply elem_of_app. by left.
Qed.

(** C9.  An empty string in an optional field is treated like a missing
    one.  A [Question] whose [id] is empty declares its [question] text; a
    [Switch] whose [id] is empty leaves the state untouched; no collected
    reference has an empty target, so no [invalid_reference] error cites
    one.  Replacing every empty [id], [next_question] and [goto] of the tree
    by [None] changes neither the violations nor the references, the
    registry binds the same identifiers to the corresponding nodes, and
    validation returns, or raises the same exception, on both trees. *)
Theorem empty_strings_are_absent self :
  (∀ q node_loc st,
     Question.id q = Some "" →
     walk_node (NQuestion q) node_loc st =
     and_then (declare (Question.question q) (NQuestion q) node_loc st)
              (λ st1, Returned (question_refs q node_loc st1))) ∧
  (∀ s node_loc st,
     Switch.id s = Some "" → walk_switch_id s node_loc st = Returned st) ∧
  (∀ r, r ∈ references self → r.2 ≠ "") ∧
  (∀ l, mkError (invalid_reference "") l ∉ violations self) ∧
  violations (map_questionnaire blank_question blank_to_none self) =
    violations self ∧
  references (map_questionnaire blank_question blank_to_none self) =
    references self ∧
  registry (map_questionnaire blank_question blank_to_none self) =
    map_nodes blank_question blank_to_none <$> registry self ∧
  ((∃ self', validate_and_build_id_map
               (map_questionnaire blank_question blank_to_none self) =
             inr self') ↔
   (∃ self', validate_and_build_id_map self = inr self')) ∧
  (∀ e, validate_and_build_id_map
          (map_questionnaire blank_question blank_to_none self) = inl e ↔
        validate_and_build_id_map self = inl e).
Proof.
  split.
  { intros q node_loc st Hid. rewrite walk_node_question.
    unfold walk_question. by rewrite Hid. }
  split.
  { intros s node_loc st Hid. unfold walk_switch_id. by rewrite Hid. }
  split.
  { intros [l t] (v & _ & [_ ?]%node_refs_elem)%references_elem%ref_events_elem.
    done. }
  split; [|apply blank_run].
  intros l. rewrite violations_nil. apply not_elem_of_nil.
Qed.

Lemma empty_strings_are_absent_witness :
  violations sample_blank = [] ∧
  references sample_blank = [] ∧
  walk_switch_id (mkSwitch "w" (Some "") [])
    [SStr "questions"; SInt 2] init_state = Returned init_state ∧
  size (registry sample_blank) = 1.
Proof.
  destruct (empty_strings_are_absent sample_blank)
    as (_ & Hs & _ & _ & Hv & Hr & _).
  split; [|split; [|split]].
  - rewrite <- Hv. reflexivity.
  - rewrite <- Hr. reflexivity.
  - apply Hs. reflexivity.
  - reflexivity.
Defined.


(** ** What the code does where it should report a violation *)

(** C2.  When an identifier is declared a second time, the code does not
    record a [DuplicateIdentifier] violation: the walk raises the
    [AttributeError] of the missing [as_error] at the first duplicate it
    meets, validation raises that exception, and the list of violations is
    empty. *)
Theorem duplicate_identifier_raises self q p d1 d :
  declarations self !! q = Some d1 →
  q < p →
  declarations self !! p = Some d →
  decl_id d = decl_id d1 →
  validate_and_build_id_map self = inl missing_as_error ∧
  (∃ st,
     walk (Questionnaire.questions self) [] init_state =
     Raised missing_as_error st) ∧
  violations self = [] ∧
  errors_at (decl_loc d ++ [SStr "id"]) (violations self) = 0.
Proof.
  intros Hq Hlt Hp Hid.
  destruct (not_NoDup_validate self) as [Hv Hw];
    [exact (two_declarations_not_NoDup _ q p d1 d Hq Hp Hlt Hid)|].
  rewrite violations_nil. done.
Qed.

Lemma duplicate_identifier_raises_witness :
  validate_and_build_id_map sample_duplicate = inl missing_as_error ∧
  errors_at [SStr "questions"; SInt 1; SStr "id"]
    (violations sample_duplicate) = 0.
Proof.
  destruct (duplicate_identifier_raises sample_duplicate 0 1
              (mkDecl [SStr "questions"; SInt 0] "q1"
                 (ask "a?" (Some "q1") None []))
              (mkDecl [SStr "questions"; SInt 1] "q1"
                 (ask "b?" (Some "q1") None [])))
    as (Hv & _ & _ & H0); try reflexivity; [lia|].
  split; [exact Hv|exact H0].
Defined.

(** C3.  When the walk has returned and a collected reference has a target
    that is not a key of the registry, the code does not record an
    [UnresolvedReference] violation: the check of that reference raises the
    [AttributeError] of the missing [as_error], validation raises that
    exception, and the list of violations is empty. *)
Theorem unresolved_reference_raises self st p l r :
  walk (Questionnaire.questions self) [] init_state = Returned st →
  references self !! p = Some (l, r) →
  registry self !! r = None →
  check_ref (l, r) st = Raised missing_as_error st ∧
  validate_and_build_id_map self = inl missing_as_error ∧
  violations self = [] ∧
  errors_at l (violations self) = 0.
Proof.
  intros Hwalk Hp Hnone.
  destruct (walk_Returned_run _ _ Hwalk) as (Hreg & Href & Hst & _).
  split; [by rewrite check_ref_spec, Hst; simpl; rewrite Hnone|].
  rewrite violations_nil. split; [|done].
  destruct (validate_and_build_id_map self) as [e|self'] eqn:E.
  - by apply validate_inl in E as ->.
  - apply validate_inr in E as (_ & Hall & _).
    assert (is_Some (registry self !! r)) as [n Hn]; [|congruence].
    rewrite Hreg. apply register_is_Some. right.
    apply (Hall (l, r)). rewrite <- Href. apply list_elem_of_lookup. eauto.
Qed.

Lemma unresolved_reference_raises_witness :
  validate_and_build_id_map sample_missing = inl missing_as_error ∧
  errors_at [SStr "questions"; SInt 0; SStr "answers"; SInt 1; SStr "goto"]
    (violations sample_missing) = 0.
Proof.
  destruct (unresolved_reference_raises sample_missing _ 2
              [SStr "questions"; SInt 0; SStr "answers"; SInt 1; SStr "goto"]
              "missing" eq_refl eq_refl eq_refl)
    as (_ & Hv & _ & H0).
  split; [exact Hv|exact H0].
Defined.

(** C6.  Nothing is ever appended to [errors]: the list of violations is
    empty in every run, the [ValidationError] of line 151 is never raised,
    and the only failure of validation is the [AttributeError] of the
    missing [as_error], which carries no violation. *)
Theorem validation_failure_is_attribute_error self :
  violations self = [] ∧
  (∀ e, validate_and_build_id_map self = inl e → e = missing_as_error) ∧
  (∀ v, validate_and_build_id_map self ≠ inl (RaisedValidationError v)).
Proof.
  split; [apply violations_nil|]. split; [apply validate_inl|].
  by intros v Hv%validate_inl.
Qed.

Lemma validation_failure_is_attribute_error_witness :
  validate_and_build_id_map sample_missing = inl missing_as_error ∧
  violations sample_missing = [].
Proof.
  destruct (validation_failure_is_attribute_error sample_missing)
    as (Hnil & Hexc & _).
  split; [|exact Hnil].
  destruct (validate_and_build_id_map sample_missing) as [e|s] eqn:E.
  - by rewrite (Hexc e eq_refl).
  - discriminate E.
Defined.

(** C7.  A [Question] without [id] declares its [question] text: walked
    when the text is not yet bound, the registry binds the text to the
    question.  But two visited questions without [id] and with the same text
    do not give a [DuplicateIdentifier] violation: validation raises the
    [AttributeError] of the missing [as_error] and the list of violations is
    empty. *)
Theorem same_text_questions_raise self p1 p2 l1 l2 q1 q2 :
  visits (Questionnaire.questions self) [] !! p1 = Some (l1, NQuestion q1) →
  visits (Questionnaire.questions self) [] !! p2 = Some (l2, NQuestion q2) →
  p1 < p2 →
  Question.id q1 = None →
  Question.id q2 = None →
  Question.question q1 = Question.question q2 →
  (∀ node_loc st,
     id_to_node st !! Question.question q2 = None →
     ∃ st',
       walk_node (NQuestion q2) node_loc st = Returned st' ∧
       id_to_node st' !! Question.question q2 = Some (NQuestion q2)) ∧
  validate_and_build_id_map self = inl missing_as_error ∧
  violations self = [] ∧
  errors_at (l2 ++ [SStr "id"]) (violations self) = 0.
Proof.
  intros Hp1 Hp2 Hlt Hid1 Hid2 Htext. split.
  { intros node_loc st Hfresh. rewrite walk_node_question.
    unfold walk_question. rewrite Hid2. simpl.
    rewrite declare_spec, Hfresh. simpl. eexists. split; [done|].
    rewrite question_refs_spec. simpl. apply lookup_insert_eq. }
  rewrite violations_nil. split; [|done].
  apply not_NoDup_validate. intros Hnd%fresh_empty.
  set (d2 := mkDecl l2 (Question.question q2) (NQuestion q2)).
  assert (decl_of (l2, NQuestion q2) = Some d2) as Hd2
    by (unfold decl_of; simpl; by rewrite Hid2).
  destruct (decl_events_at _ _ _ _ Hp2 Hd2) as [Hk Htake].
  destruct (fresh_lookup _ _ _ _ Hnd Hk) as [_ Hnotin].
  apply Hnotin. unfold declarations. rewrite Htake.
  apply list_elem_of_fmap.
  exists (mkDecl l1 (Question.question q1) (NQuestion q1)).
  split; [by simpl|]. apply decl_events_elem.
  exists (l1, NQuestion q1). split; [|by simpl; rewrite Hid1].
  apply elem_of_take. eauto.
Qed.

Lemma same_text_questions_raise_witness :
  validate_and_build_id_map sample_same_text = inl missing_as_error ∧
  errors_at [SStr "questions"; SInt 1; SStr "id"]
    (violations sample_same_text) = 0.
Proof.
  destruct (same_text_questions_raise sample_same_text 0 1
              [SStr "questions"; SInt 0] [SStr "questions"; SInt 1]
              (Question.mk "again?" None None [] None)
              (Question.mk "again?" None None [] None))
    as (_ & Hv & _ & H0); try reflexivity; [lia|].
  split; [exact Hv|exact H0].
Defined.

(** C8.  The walk stops at the first problem.  When the [k]-th visit
    declares an identifier that is already bound and no visit before it
    does, the walk raises the [AttributeError] of the missing [as_error] in
    the state reached after the first [k] visits: the nodes from the [k]-th
    visit on are not handled, their identifiers are not registered and their
    references are not collected. *)
Theorem walk_stops_at_first_duplicate nodes loc st k v d :
  visits nodes loc !! k = Some v →
  decl_of v = Some d →
  fresh (decl_events (take k (visits nodes loc))) (id_to_node st) →
  is_Some (register (decl_events (take k (visits nodes loc))) (id_to_node st)
             !! decl_id d) →
  walk nodes loc st =
    Raised missing_as_error (state_after (take k (visits nodes loc)) st) ∧
  refs (outcome_state (walk nodes loc st)) =
    refs st ++ ref_events (take k (visits nodes loc)) ∧
  errors (outcome_state (walk nodes loc st)) = errors st.
Proof.
  intros Hk Hd Hf Hsome.
  assert (walk nodes loc st =
          Raised missing_as_error (state_after (take k (visits nodes loc)) st))
    as Hwalk.
  { rewrite walk_visits.
    rewrite <- (take_drop_middle (visits nodes loc) k v Hk) at 1.
    rewrite run_visits_app.
    rewrite (proj2 (run_visits_Returned (take k (visits nodes loc)) st _)
               (conj Hf eq_refl)).
    simpl. rewrite visit_spec, Hd. simpl.
    by destruct Hsome as [n ->]. }
  by rewrite Hwalk.
Qed.

Lemma walk_stops_at_first_duplicate_witness :
  references sample_duplicate_then_reference = [] ∧
  length (ref_events
            (visits (Questionnaire.questions sample_duplicate_then_reference)
               [])) = 2.
Proof.
  destruct (walk_stops_at_first_duplicate
              (Questionnaire.questions sample_duplicate_then_reference)
              [] init_state 1
              ([SStr "questions"; SInt 1], ask "b?" (Some "q1") None [])
              (mkDecl [SStr "questions"; SInt 1] "q1"
                 (ask "b?" (Some "q1") None [])))
    as (_ & Hrefs & _); try reflexivity.
  - split.
    + refine (bool_decide_unpack _ _). vm_compute. exact I.
    + intros d' Hd'. apply lookup_empty.
  - vm_compute. eauto.
  - split; [exact Hrefs|reflexivity].
Defined.


(** * Further properties of the validator *)

(** ** When validation succeeds *)

(** X1.  Validation returns a questionnaire exactly when the identifiers
    declared in the tree are pairwise distinct and the target of every
    collected reference is declared in the tree. *)
Theorem validation_succeeds_iff self :
  (∃ self', validate_and_build_id_map self = inr self') ↔
  NoDup (decl_id <$> declarations self) ∧
  ∀ r, r ∈ references self → r.2 ∈ decl_id <$> declarations self.
Proof.
  split.
  - intros [self' (Hnd & Hall & _)%validate_inr]. split; [done|].
    intros r Hr%references_elem. by apply Hall.
  - intros [Hnd Hall]. eexists. apply validate_inr.
    split; [done|]. split; [|done].
    destruct (walk_Returned_run _ _ (NoDup_walk_Returned self Hnd))
      as (_ & Href & _).
    intros r Hr. apply Hall. by rewrite Href.
Qed.

Lemma validation_succeeds_iff_witness :
  (∃ self', validate_and_build_id_map sample_switch = inr self') ∧
  NoDup (decl_id <$> declarations sample_forward).
Proof.
  split.
  - apply (proj2 (validation_succeeds_iff sample_switch)). split.
    + refine (bool_decide_unpack _ _). vm_compute. exact I.
    + apply Forall_forall. refine (bool_decide_unpack _ _). vm_compute.
      exact I.
  - apply (proj1 (validation_succeeds_iff sample_forward)).
    eexists. reflexivity.
Defined.

(** X2.  Validation reads only the questions: run again on the
    questionnaire it returned, it returns that same questionnaire. *)
Theorem validation_idempotent self self' :
  validate_and_build_id_map self = inr self' →
  validate_and_build_id_map self' = inr self' ∧
  violations self' = [] ∧
  registry self' = Questionnaire._question_map self'.
Proof.
  intros (Hnd & Hall & ->)%validate_inr.
  split; [by apply validate_inr|]. split; [apply violations_nil|].
  by destruct (walk_Returned_run _ _ (NoDup_walk_Returned self Hnd))
    as (<- & _).
Qed.

Lemma validation_idempotent_witness :
  ∃ self',
    validate_and_build_id_map sample_switch = inr self' ∧
    validate_and_build_id_map self' = inr self'.
Proof.
  eexists. split; [reflexivity|].
  exact (proj1 (validation_idempotent sample_switch _ eq_refl)).
Defined.

(** ** What the registry holds *)

Lemma prefix_lookup {A} (l1 l : list A) i x :
  l1 `prefix_of` l → l1 !! i = Some x →
  l !! i = Some x ∧ take i l = take i l1.
Proof.
  intros [l2 ->] Hi. split; [by apply lookup_app_l_Some|].
  apply take_app_le. apply lookup_lt_Some in Hi. lia.
Qed.

(** X3.  Whether the walk returns or raises, a binding of the registry maps
    an identifier to a node of the tree that declares this identifier, and
    that node is the first one in traversal order to declare it. *)
Theorem registry_binds_first_declaring_node self i n :
  registry self !! i = Some n →
  ∃ k d,
    declarations self !! k = Some d ∧
    decl_id d = i ∧ decl_node d = n ∧
    i ∉ decl_id <$> take k (declarations self) ∧
    effective_id n = Some i ∧
    node_at (Questionnaire.questions self) (decl_loc d) n.
Proof.
  unfold registry.
  destruct (walk_state (Questionnaire.questions self) [] init_state)
    as (j & -> & _). simpl.
  intros [Hn|(_ & k & d & Hk & Hid & Hnode & Hfirst)]%register_lookup_Some;
    [by rewrite lookup_empty in Hn|].
  destruct (prefix_lookup _ _ _ _ (decl_events_take_prefix j _) Hk)
    as [Hk' Htake].
  exists k, d. split; [done|]. split; [done|]. split; [done|].
  split; [unfold declarations; by rewrite Htake|].
  assert (d ∈ declarations self) as Hd by (apply list_elem_of_lookup; eauto).
  apply decl_events_elem in Hd as ([l n'] & Hv & Heff & Hl & Hn').
  simpl in *. rewrite <- Hnode, <- Hid, Hn', Hl. split; [done|].
  by apply visits_positions in Hv as (p & -> & Hat).
Qed.

Lemma registry_binds_first_declaring_node_witness :
  ∃ k d,
    declarations sample_duplicate !! k = Some d ∧
    decl_id d = "q1" ∧
    decl_node d = ask "a?" (Some "q1") None [] ∧
    "q1" ∉ decl_id <$> take k (declarations sample_duplicate).
Proof.
  destruct (registry_binds_first_declaring_node sample_duplicate "q1"
              (ask "a?" (Some "q1") None []) eq_refl)
    as (k & d & Hk & Hid & Hn & Hfirst & _).
  by exists k, d.
Defined.

(** X5.  The walk only adds to the three variables it updates: whether it
    returns or raises, the errors and references it starts with stay at the
    front of the lists, and every binding of the initial registry is kept
    unchanged. *)
Theorem walk_extends_state nodes loc st :
  errors st `prefix_of` errors (outcome_state (walk nodes loc st)) ∧
  refs st `prefix_of` refs (outcome_state (walk nodes loc st)) ∧
  id_to_node st ⊆ id_to_node (outcome_state (walk nodes loc st)).
Proof.
  destruct (walk_state nodes loc st) as (k & -> & _). simpl.
  split; [done|]. split; [by eexists|].
  apply map_subseteq_spec. intros i x Hi. by apply register_keeps.
Qed.

(** ** Walking below a location *)

Section Below_a_location.
Variable a : Loc.

Let shift (v : Loc * Node) : Loc * Node := (a ++ v.1, v.2).
Let shift_decl (d : Decl) : Decl :=
  mkDecl (a ++ decl_loc d) (decl_id d) (decl_node d).

Lemma visits_from_shift_aux nodes :
  Forall (λ n, ∀ l, visits_node n (a ++ l) = shift <$> visits_node n l)
         nodes →
  ∀ i loc, visits_from i nodes (a ++ loc) = shift <$> visits_from i nodes loc.
Proof.
  induction 1 as [|n nodes Hn _ IH]; intros i loc; [done|].
  simpl. by rewrite fmap_app, <- app_assoc, Hn, IH.
Qed.

Lemma visits_node_shift n l :
  visits_node n (a ++ l) = shift <$> visits_node n l.
Proof.
  revert l. induction n as [q|s IH] using Node_ind; intros l; [done|].
  rewrite !visits_node_switch. simpl. f_equal.
  generalize 0. induction IH as [|c cs Hc _ IHcs]; intros k; [done|].
  simpl. rewrite fmap_app, IHcs. f_equal. unfold visits.
  rewrite <- app_assoc. by apply visits_from_shift_aux.
Qed.

Lemma visits_from_shift i nodes loc :
  visits_from i nodes (a ++ loc) = shift <$> visits_from i nodes loc.
Proof.
  apply visits_from_shift_aux, Forall_forall. intros n _.
  apply visits_node_shift.
Qed.

Lemma decl_events_shift vs :
  decl_events (shift <$> vs) = shift_decl <$> decl_events vs.
Proof.
  induction vs as [|v vs IH]; [done|].
  rewrite fmap_cons, !decl_events_cons, IH. unfold decl_of. simpl.
  by destruct (effective_id v.2).
Qed.

Lemma answer_refs_shift j anss l :
  answer_refs j anss (a ++ l) = relocate_ref a <$> answer_refs j anss l.
Proof.
  revert j. induction anss as [|x anss IH]; intros j; [done|]. simpl.
  rewrite fmap_app, IH. f_equal.
  destruct (truthy (Answer.goto x)); [|done].
  unfold relocate_ref. simpl. by rewrite <- app_assoc.
Qed.

Lemma node_refs_shift v : node_refs (shift v) = relocate_ref a <$> node_refs v.
Proof.
  destruct v as [l [q|s]]; unfold node_refs; simpl; [|done].
  rewrite fmap_app, answer_refs_shift. f_equal.
  destruct (truthy (Question.next_question q)); [|done].
  unfold relocate_ref. simpl. by rewrite <- app_assoc.
Qed.

Lemma ref_events_shift vs :
  ref_events (shift <$> vs) = relocate_ref a <$> ref_events vs.
Proof.
  induction vs as [|v vs IH]; [done|].
  by rewrite fmap_cons, !ref_events_cons, fmap_app, node_refs_shift, IH.
Qed.

Lemma decl_ids_shift vs :
  decl_id <$> decl_events (shift <$> vs) = decl_id <$> decl_events vs.
Proof.
  rewrite decl_events_shift, <- list_fmap_compose. done.
Qed.

Lemma ref_targets_shift vs :
  (ref_events (shift <$> vs)).*2 = (ref_events vs).*2.
Proof.
  rewrite ref_events_shift, <- list_fmap_compose. done.
Qed.

Lemma visit_shift st v :
  visit (relocate_state a st) (shift v) = relocate_outcome a (visit st v).
Proof.
  rewrite !visit_spec, node_refs_shift. unfold decl_of. simpl.
  destruct (effective_id v.2) as [ident|]; simpl.
  - destruct (id_to_node st !! ident); simpl; [done|].
    unfold relocate_state. simpl. by rewrite fmap_app.
  - unfold relocate_state. simpl. by rewrite fmap_app.
Qed.

Lemma run_visits_shift vs st :
  run_visits (shift <$> vs) (relocate_state a st) =
  relocate_outcome a (run_visits vs st).
Proof.
  revert st. induction vs as [|v vs IH]; intros st; [done|].
  simpl. rewrite visit_shift.
  destruct (visit st v); simpl; [apply IH|done].
Qed.

Lemma walk_shift nodes loc st :
  walk nodes (a ++ loc) (relocate_state a st) =
  relocate_outcome a (walk nodes loc st).
Proof.
  rewrite !walk_visits. unfold visits.
  by rewrite visits_from_shift, run_visits_shift.
Qed.
End Below_a_location.

(** X9.  Locations are relative to the location the walk is started with:
    walking a sequence with the location [a ++ loc] returns or raises as the
    walk with [loc] does, with the same registry, and with [a] put in front
    of every location of its errors and references.  This is what makes the
    recursion into a case report locations below the enclosing switch. *)
Theorem walk_below_location a nodes loc m :
  walk nodes (a ++ loc) (mkState [] m []) =
    relocate_outcome a (walk nodes loc (mkState [] m [])) ∧
  errors (outcome_state (walk nodes (a ++ loc) (mkState [] m []))) =
    relocate a <$> errors (outcome_state (walk nodes loc (mkState [] m []))) ∧
  refs (outcome_state (walk nodes (a ++ loc) (mkState [] m []))) =
    relocate_ref a <$>
      refs (outcome_state (walk nodes loc (mkState [] m []))) ∧
  id_to_node (outcome_state (walk nodes (a ++ loc) (mkState [] m []))) =
    id_to_node (outcome_state (walk nodes loc (mkState [] m []))).
Proof.
  pose proof (walk_shift a nodes loc (mkState [] m [])) as H.
  change (relocate_state a (mkState [] m [])) with (mkState [] m []) in H.
  rewrite H. split; [done|].
  by destruct (walk nodes loc (mkState [] m [])).
Qed.

(** ** Reordering the questions *)

Lemma visits_node_anywhere n l :
  decl_id <$> decl_events (visits_node n l) = node_ids n ∧
  (ref_events (visits_node n l)).*2 = node_targets n.
Proof.
  unfold node_ids, node_targets.
  rewrite <- (app_nil_r l), visits_node_shift.
  by rewrite decl_ids_shift, ref_targets_shift.
Qed.

Lemma visits_from_ids i nodes loc :
  decl_id <$> decl_events (visits_from i nodes loc) = nodes ≫= node_ids.
Proof.
  revert i. induction nodes as [|n nodes IH]; intros i; [done|]. simpl.
  rewrite decl_events_app, fmap_app, IH.
  by rewrite (proj1 (visits_node_anywhere _ _)).
Qed.

Lemma visits_from_targets i nodes loc :
  (ref_events (visits_from i nodes loc)).*2 = nodes ≫= node_targets.
Proof.
  revert i. induction nodes as [|n nodes IH]; intros i; [done|]. simpl.
  rewrite ref_events_app, fmap_app, IH.
  by rewrite (proj2 (visits_node_anywhere _ _)).
Qed.

Lemma validate_succeeds_lists self :
  (∃ self', validate_and_build_id_map self = inr self') ↔
  NoDup (Questionnaire.questions self ≫= node_ids) ∧
  ∀ t, t ∈ Questionnaire.questions self ≫= node_targets →
       t ∈ Questionnaire.questions self ≫= node_ids.
Proof.
  rewrite <- (visits_from_ids 0 _ []), <- (visits_from_targets 0 _ []).
  fold (visits (Questionnaire.questions self) []).
  fold (declarations self). split.
  - intros [self' (Hnd & Hall & _)%validate_inr]. split; [done|].
    intros t [r [-> Hr]]%list_elem_of_fmap. by apply Hall.
  - intros [Hnd Hall]. eexists. apply validate_inr.
    split; [done|]. split; [|done].
    intros r Hr. apply Hall, list_elem_of_fmap. eauto.
Qed.

(** X10.  Whether validation succeeds does not depend on the order of the
    top-level questions: two questionnaires whose question lists are
    permutations of each other are both accepted or both rejected. *)
Theorem validation_order_independent self1 self2 :
  Questionnaire.questions self1 ≡ₚ Questionnaire.questions self2 →
  (∃ self', validate_and_build_id_map self1 = inr self') ↔
  (∃ self', validate_and_build_id_map self2 = inr self').
Proof.
  intros Hperm. rewrite !validate_succeeds_lists.
  assert (Questionnaire.questions self1 ≫= node_ids ≡ₚ
          Questionnaire.questions self2 ≫= node_ids) as Hids
    by by rewrite Hperm.
  assert (Questionnaire.questions self1 ≫= node_targets ≡ₚ
          Questionnaire.questions self2 ≫= node_targets) as Htargets
    by by rewrite Hperm.
  rewrite Hids. split; intros [Hnd Hrefs]; (split; [done|]); intros t Ht.
  - rewrite <- Hids. apply Hrefs. by rewrite Htargets.
  - rewrite Hids. apply Hrefs. by rewrite <- Htargets.
Qed.

Lemma validation_order_independent_witness :
  ∃ self',
    validate_and_build_id_map
      (sample (reverse (Questionnaire.questions sample_forward))) =
    inr self'.
Proof.
  apply (proj1 (validation_order_independent sample_forward
                  (sample (reverse (Questionnaire.questions sample_forward)))
                  (symmetry (reverse_Permutation _)))).
  eexists. reflexivity.
Defined.
